(** * The MTD output stream of NuttX (libs/libc/stream/lib_mtdoutstream.c)

    A shallow embedding of [mtdoutstream_flush], [mtdoutstream_puts],
    [mtdoutstream_putc], [lib_mtdoutstream_close] and
    [lib_mtdoutstream_open], followed by the properties of the stream that
    its specification states.

    Conventions of the embedding.
    - C integers are values of [Z].  [size_t] arithmetic wraps modulo
      [2 ^ size_bits], where the width [size_bits] is a parameter of the
      development; [int] is 32 bits wide and its conversions and sums are
      taken in two's complement (a sum of two [int]s that overflows is
      undefined in C: the model gives it the wrapped value).  The
      declarations the file relies on are those of the NuttX headers:
      [common.nput] is an [int] (nuttx/streams.h), the three fields of
      [struct mtd_geometry_s] are [uint32_t] (nuttx/mtd/mtd.h).
    - A division or remainder by zero, which [lib_mtdoutstream_open] rules
      out by refusing a geometry with a zero field, is the one of [Z].
    - The driver behind [inode->u.i_mtd] is a parameter: a table of
      optional methods ([struct mtd_dev_s]) acting on a private driver
      state of an arbitrary type [D].
    - Every call that leaves the stream (driver methods, with the value
      they return; [close_mtddriver]; [lib_free]) is appended to a trace
      kept next to the driver state.
    - Dereferencing a null pointer and copying outside a buffer are
      [Undefined]; the [while] loop of [mtdoutstream_puts] runs on fuel and
      [Diverged] is the result of running out of it. *)

From Stdlib Require Import ZArith List Lia Bool.
From Stdlib Require Strings.String.
From Stdlib Require Import Strings.Byte.
Import ListNotations.
Local Open Scope Z_scope.

(** ** Constants of errno.h and limits.h, with the values NuttX gives
    them *)

Definition OK : Z := 0.
Definition ENOMEM : Z := 12.
Definition EINVAL : Z := 22.
Definition ENOSPC : Z := 28.
Definition ENOSYS : Z := 38.
Definition INT_MAX : Z := 2147483647.

(** ** Results of running a function *)

Inductive outcome (A : Type) : Type :=
| Done (a : A)
| Undefined
| Diverged.

Arguments Done {A} a.
Arguments Undefined {A}.
Arguments Diverged {A}.

(** ** Machine integers *)

(** Conversion to [int]: the two's-complement representative in
    [-2^31, 2^31). *)
Definition to_int (z : Z) : Z := (z + 2 ^ 31) mod 2 ^ 32 - 2 ^ 31.

(** [a + b] on two [int]s. *)
Definition int_add (a b : Z) : Z := to_int (a + b).

(** Conversion to [uint32_t], the type of the geometry fields. *)
Definition to_uint32 (z : Z) : Z := z mod 2 ^ 32.

(** Conversion of [int ch] to [char], kept as the byte it denotes. *)
Definition char_of_int (ch : Z) : byte :=
  match Byte.of_N (Z.to_N (ch mod 256)) with
  | Some b => b
  | None => x00
  end.

(** ** struct mtd_geometry_s *)

Record mtd_geometry_s : Type := {
  blocksize : Z;
  erasesize : Z;
  neraseblocks : Z
}.

(** ** What the stream asks of its environment *)

Inductive mtd_event : Type :=
| EvErase (startblock nblocks : Z) (ret : Z)
| EvBWrite (startblock nblocks : Z) (buf : list byte) (ret : Z)
| EvWrite (offset nbytes : Z) (buf : list byte) (ret : Z)
| EvGeometry
| EvCloseDriver
| EvFree.

(** The value a driver method returned; [OK] for the other events. *)
Definition event_ret (e : mtd_event) : Z :=
  match e with
  | EvErase _ _ ret => ret
  | EvBWrite _ _ _ ret => ret
  | EvWrite _ _ _ ret => ret
  | _ => OK
  end.

(** No call of the list reported an error. *)
Definition no_error (evs : list mtd_event) : Prop :=
  Forall (fun e => 0 <= event_ret e) evs.

(** Releases of the device handle, and of the cache buffer, in a trace. *)
Definition is_close (e : mtd_event) : bool :=
  match e with EvCloseDriver => true | _ => false end.

Definition is_free (e : mtd_event) : bool :=
  match e with EvFree => true | _ => false end.

Definition count_events (f : mtd_event -> bool) (evs : list mtd_event) : nat :=
  length (filter f evs).

(** The bytes a driver takes from the buffer of a block write: [nblocks]
    blocks of [blocksize] bytes each, from the start of the buffer. *)
Definition bwrite_payload (g : mtd_geometry_s) (e : mtd_event) : list byte :=
  match e with
  | EvBWrite _ nblocks buf _ =>
      firstn (Z.to_nat (nblocks * blocksize g)) buf
  | _ => []
  end.

(** ** memset and memcpy on a buffer held as a list *)

Definition buflen (b : list byte) : Z := Z.of_nat (length b).


(** [memset(dst, c, n)]; [None] when [n] bytes do not fit in [dst]. *)
Definition memset (dst : list byte) (c : byte) (n : Z) : option (list byte) :=
  if (0 <=? n) && (n <=? buflen dst)
  then Some (repeat c (Z.to_nat n) ++ skipn (Z.to_nat n) dst)
  else None.

(** [memcpy(dst + off, src, n)]; [None] when the [n] bytes are not all
    inside [dst] or not all readable from [src]. *)
Definition memcpy (dst : list byte) (off : Z) (src : list byte) (n : Z)
  : option (list byte) :=
  if (0 <=? off) && (0 <=? n) && (off + n <=? buflen dst) && (n <=? buflen src)
  then Some (firstn (Z.to_nat off) dst ++ firstn (Z.to_nat n) src
               ++ skipn (Z.to_nat (off + n)) dst)
  else None.

Section Types.

(** The private state of the driver. *)
Variable D : Type.

(** ** struct mtd_dev_s: the methods of a driver, null or not

    A method takes the driver state and returns the value the caller
    receives in [int ret] with the next driver state.  [ioctl] is the
    [MTDIOC_GEOMETRY] command, the only one the stream issues. *)

Record mtd_dev_s : Type := {
  erase : option (D -> Z -> Z -> Z * D);
  bwrite : option (D -> Z -> Z -> list byte -> Z * D);
  write : option (D -> Z -> Z -> list byte -> Z * D);
  ioctl : option (D -> Z * mtd_geometry_s * D)
}.

(** The world outside the stream object: the driver state and the trace
    of calls made so far. *)
Record world : Type := {
  dev : D;
  trace : list mtd_event
}.

Definition emit (w : world) (dv : D) (e : mtd_event) : world :=
  {| dev := dv; trace := trace w ++ [e] |}.

(** ** struct lib_mtdoutstream_s

    [nput] is [common.nput]; [inode] and [cache] are pointers, [None]
    when null. *)

Record lib_mtdoutstream_s : Type := {
  nput : Z;
  geo : mtd_geometry_s;
  inode : option mtd_dev_s;
  cache : option (list byte)
}.

Definition set_nput (s : lib_mtdoutstream_s) (n : Z) : lib_mtdoutstream_s :=
  {| nput := n; geo := geo s; inode := inode s; cache := cache s |}.

End Types.

Arguments erase {D} _.
Arguments bwrite {D} _.
Arguments write {D} _.
Arguments ioctl {D} _.
Arguments Build_mtd_dev_s {D} _ _ _ _.
Arguments dev {D} _.
Arguments trace {D} _.
Arguments Build_world {D} _ _.
Arguments emit {D} _ _ _.
Arguments nput {D} _.
Arguments geo {D} _.
Arguments inode {D} _.
Arguments cache {D} _.
Arguments Build_lib_mtdoutstream_s {D} _ _ _ _.
Arguments set_nput {D} _ _.

(** ** A driver backed by RAM

    A driver to run the statements on, with the primitives the spec lists
    for a device ([erase], [blockProgram], [byteProgram], the geometry
    query).  The device is a list of bytes.  An erase sets whole erase
    units to [xff], a block write and a byte write store the bytes they
    are given; a store that runs past the end of the memory is cut
    there.  The two
    fault codes make the erase and the block write fail with that code,
    leaving the memory as it is, when they are negative. *)

Fixpoint ram_store (mem : list byte) (off : nat) (data : list byte)
  : list byte :=
  match mem with
  | [] => []
  | x :: mem' =>
      match off with
      | S off' => x :: ram_store mem' off' data
      | O =>
          match data with
          | [] => mem
          | y :: data' => y :: ram_store mem' O data'
          end
      end
  end.

Definition ram_erase (g : mtd_geometry_s) (fault : Z) (mem : list byte)
           (startblock nblocks : Z) : Z * list byte :=
  if fault <? 0 then (fault, mem)
  else (OK, ram_store mem (Z.to_nat (startblock * erasesize g))
                      (repeat xff (Z.to_nat (nblocks * erasesize g)))).

Definition ram_bwrite (g : mtd_geometry_s) (fault : Z) (mem : list byte)
           (startblock nblocks : Z) (buf : list byte) : Z * list byte :=
  if fault <? 0 then (fault, mem)
  else (Z.max 0 nblocks,
        ram_store mem (Z.to_nat (startblock * blocksize g))
                  (firstn (Z.to_nat (nblocks * blocksize g)) buf)).

Definition ram_write (mem : list byte) (offset nbytes : Z) (buf : list byte)
  : Z * list byte :=
  (Z.max 0 nbytes,
   ram_store mem (Z.to_nat offset) (firstn (Z.to_nat nbytes) buf)).

Definition ram_mtd (g : mtd_geometry_s) (erase_fault bwrite_fault : Z)
           (byte_writes : bool) : mtd_dev_s (list byte) :=
  {| erase := Some (ram_erase g erase_fault);
     bwrite := Some (ram_bwrite g bwrite_fault);
     write := if byte_writes then Some ram_write else None;
     ioctl := Some (fun mem => (OK, g, mem)) |}.

(** An allocator that never fails. *)
Definition ram_malloc (n : Z) : option (list byte) :=
  if 0 <=? n then Some (repeat x00 (Z.to_nat n)) else None.

(** Three erase units of two blocks of two bytes. *)
Definition small_geo : mtd_geometry_s :=
  {| blocksize := 2; erasesize := 4; neraseblocks := 3 |}.

Definition small_mem : list byte := repeat x00 12.

Definition small_world : world (list byte) :=
  {| dev := small_mem; trace := [] |}.

Definition small_stream (d : mtd_dev_s (list byte)) (pos : Z)
           (c : option (list byte)) : lib_mtdoutstream_s (list byte) :=
  {| nput := pos; geo := small_geo; inode := Some d; cache := c |}.

(** The RAM driver without faults and without byte writes, with byte
    writes, and with an erase that fails with [-EIO]. *)
Definition small_ram : mtd_dev_s (list byte) := ram_mtd small_geo 0 0 false.
Definition small_ram_bytes : mtd_dev_s (list byte) :=
  ram_mtd small_geo 0 0 true.
Definition small_ram_worn : mtd_dev_s (list byte) :=
  ram_mtd small_geo (-5) 0 false.

Definition small_find (name : String.string)
  : Z * option (mtd_dev_s (list byte)) :=
  (OK, Some small_ram).

Definition small_find_bytes (name : String.string)
  : Z * option (mtd_dev_s (list byte)) :=
  (OK, Some small_ram_bytes).

(** ** A device larger than an int can count

    A device of 3 GiB, in erase units of 64 KiB, behind a driver with byte
    writes that keeps no content: every call succeeds, the writes report
    the count they were given.  [big_buf] is a buffer of [INT_MAX]
    bytes. *)

Definition large_geo : mtd_geometry_s :=
  {| blocksize := 256; erasesize := 65536; neraseblocks := 49152 |}.

Definition void_mtd (g : mtd_geometry_s) : mtd_dev_s unit :=
  {| erase := Some (fun _ _ _ => (OK, tt));
     bwrite := Some (fun _ _ n _ => (n, tt));
     write := Some (fun _ _ n _ => (n, tt));
     ioctl := Some (fun _ => (OK, g, tt)) |}.

Definition large_find (name : String.string) : Z * option (mtd_dev_s unit) :=
  (OK, Some (void_mtd large_geo)).

Definition large_stream (pos : Z) : lib_mtdoutstream_s unit :=
  {| nput := pos; geo := large_geo; inode := Some (void_mtd large_geo);
     cache := None |}.

Definition big_buf : list byte := repeat x00 (Z.to_nat INT_MAX).

Section Stream.

(** Width of [size_t] in bits. *)
Variable size_bits : Z.

(** Whether the build defines [CONFIG_MTD_BYTE_WRITE]. *)
Variable CONFIG_MTD_BYTE_WRITE : bool.

(** The private state of the driver. *)
Variable D : Type.

(** *** size_t arithmetic *)

Definition to_size (z : Z) : Z := z mod 2 ^ size_bits.
Definition size_add (a b : Z) : Z := to_size (a + b).
Definition size_sub (a b : Z) : Z := to_size (a - b).
Definition size_mul (a b : Z) : Z := to_size (a * b).

(** *** The MTD_ERASE, MTD_BWRITE and MTD_WRITE macros of nuttx/mtd/mtd.h

    Each calls the method when it is not null and records the call with
    the value returned; each is [-ENOSYS], and calls nothing, when the
    method is null. *)

Definition MTD_ERASE (d : mtd_dev_s D) (w : world D) (s n : Z) : Z * world D :=
  match erase d with
  | Some f =>
      let '(r, dv) := f (dev w) s n in (r, emit w dv (EvErase s n r))
  | None => (- ENOSYS, w)
  end.

Definition MTD_BWRITE (d : mtd_dev_s D) (w : world D) (s n : Z) (b : list byte)
  : Z * world D :=
  match bwrite d with
  | Some f =>
      let '(r, dv) := f (dev w) s n b in (r, emit w dv (EvBWrite s n b r))
  | None => (- ENOSYS, w)
  end.

Definition MTD_WRITE (d : mtd_dev_s D) (w : world D) (o n : Z) (b : list byte)
  : Z * world D :=
  match write d with
  | Some f =>
      let '(r, dv) := f (dev w) o n b in (r, emit w dv (EvWrite o n b r))
  | None => (- ENOSYS, w)
  end.

(** [inode->u.i_mtd->write != NULL] under [CONFIG_MTD_BYTE_WRITE]. *)
Definition byte_write (d : mtd_dev_s D) : bool :=
  CONFIG_MTD_BYTE_WRITE &&
  match write d with Some _ => true | None => false end.

(** *** mtdoutstream_flush *)

Definition mtdoutstream_flush (s : lib_mtdoutstream_s D) (w : world D)
  : outcome (Z * lib_mtdoutstream_s D * world D) :=
  let erasesize := to_size (erasesize (geo s)) in
  let nblkpererase := erasesize / to_size (blocksize (geo s)) in
  if to_size (nput s) mod erasesize >? 0 then
    match inode s with
    | None => Undefined
    | Some d =>
        if byte_write d then Done (OK, s, w)
        else
          let sblock := to_size (nput s) / erasesize in
          let '(ret, w1) := MTD_ERASE d w sblock 1 in
          if ret <? 0 then Done (ret, s, w1)
          else
            match cache s with
            | None => Undefined
            | Some c =>
                let '(ret, w2) :=
                  MTD_BWRITE d w1 (size_mul sblock nblkpererase)
                             nblkpererase c in
                Done (ret, s, w2)
            end
    end
  else Done (OK, s, w).

(** *** mtdoutstream_puts *)

(** The byte-write branch (lines 105-126). *)
Definition puts_direct (d : mtd_dev_s D) (s : lib_mtdoutstream_s D)
           (w : world D) (buf : list byte) (len : Z)
  : outcome (Z * lib_mtdoutstream_s D * world D) :=
  let erasesize := to_size (erasesize (geo s)) in
  let sblock :=
    size_sub (size_add (to_size (nput s)) erasesize) 1 / erasesize in
  let eblock :=
    size_sub (size_add (to_size (int_add (nput s) len)) erasesize) 1
    / erasesize in
  let '(ret, w1) :=
    if negb (sblock =? eblock)
    then MTD_ERASE d w sblock (size_sub eblock sblock)
    else (OK, w) in
  if ret <? 0 then Done (ret, s, w1)
  else
    let '(ret, w2) := MTD_WRITE d w1 (nput s) (to_size len) buf in
    if ret <? 0 then Done (ret, s, w2)
    else Done (len, set_nput s (int_add (nput s) len), w2).

(** How one pass through the body of the [while] loop ends. *)
Inductive loop_ctl : Type :=
| Continue (s : lib_mtdoutstream_s D) (w : world D) (ptr : list byte)
           (remain : Z)
| Return (ret : Z) (s : lib_mtdoutstream_s D) (w : world D).

(** [copyin] of line 137. *)
Definition copyin_partial (erasesize offset remain : Z) : Z :=
  if size_add offset remain >? erasesize
  then size_sub erasesize offset
  else remain.

(** The body of the [while] loop (lines 132-195).  [ptr] is the caller's
    buffer from the current position on. *)
Definition puts_iter (s : lib_mtdoutstream_s D) (w : world D)
           (ptr : list byte) (remain : Z) : outcome loop_ctl :=
  let erasesize := to_size (erasesize (geo s)) in
  let nblkpererase := erasesize / to_size (blocksize (geo s)) in
  let sblock := to_size (nput s) / erasesize in
  let offset := to_size (nput s) mod erasesize in
  if offset >? 0 then
    let copyin := copyin_partial erasesize offset remain in
    match cache s with
    | None => Undefined
    | Some c =>
        match memcpy c offset ptr copyin with
        | None => Undefined
        | Some c' =>
            let ptr' := skipn (Z.to_nat copyin) ptr in
            let offset' := size_add offset copyin in
            let s' :=
              {| nput := to_int (size_add (to_size (nput s)) copyin);
                 geo := geo s; inode := inode s; cache := Some c' |} in
            let remain' := size_sub remain copyin in
            if offset' =? erasesize then
              match inode s with
              | None => Undefined
              | Some d =>
                  let '(ret, w1) := MTD_ERASE d w sblock 1 in
                  if ret <? 0 then Done (Return ret s' w1)
                  else
                    let '(ret, w2) :=
                      MTD_BWRITE d w1 (size_mul sblock nblkpererase)
                                 nblkpererase c' in
                    if ret <? 0 then Done (Return ret s' w2)
                    else Done (Continue s' w2 ptr' remain')
              end
            else Done (Continue s' w ptr' remain')
        end
    end
  else if remain <? erasesize then
    match cache s with
    | None => Undefined
    | Some c =>
        match memset c x00 erasesize with
        | None => Undefined
        | Some c0 =>
            match memcpy c0 0 ptr remain with
            | None => Undefined
            | Some c' =>
                Done (Continue
                        {| nput := to_int (size_add (to_size (nput s)) remain);
                           geo := geo s; inode := inode s; cache := Some c' |}
                        w ptr 0)
            end
        end
    end
  else
    let nblock := remain / erasesize in
    let copyin := size_mul nblock erasesize in
    match inode s with
    | None => Undefined
    | Some d =>
        let '(ret, w1) := MTD_ERASE d w sblock nblock in
        if ret <? 0 then Done (Return ret s w1)
        else
          let '(ret, w2) :=
            MTD_BWRITE d w1 (size_mul sblock nblkpererase)
                       (size_mul nblock nblkpererase) ptr in
          if ret <? 0 then Done (Return ret s w2)
          else
            Done (Continue
                    (set_nput s (to_int (size_add (to_size (nput s)) copyin)))
                    w2 (skipn (Z.to_nat copyin) ptr)
                    (size_sub remain copyin))
    end.

(** The [while (remain > 0)] loop and the [return len] after it. *)
Fixpoint puts_loop (fuel : nat) (s : lib_mtdoutstream_s D) (w : world D)
         (ptr : list byte) (remain len : Z)
  : outcome (Z * lib_mtdoutstream_s D * world D) :=
  if remain >? 0 then
    match fuel with
    | O => Diverged
    | S fuel' =>
        match puts_iter s w ptr remain with
        | Done (Continue s' w' ptr' remain') =>
            puts_loop fuel' s' w' ptr' remain' len
        | Done (Return ret s' w') => Done (ret, s', w')
        | Undefined => Undefined
        | Diverged => Diverged
        end
    end
  else Done (len, s, w).

Definition puts_buffered (s : lib_mtdoutstream_s D) (w : world D)
           (buf : list byte) (len : Z)
  : outcome (Z * lib_mtdoutstream_s D * world D) :=
  let remain := to_size len in
  puts_loop (S (Z.to_nat remain)) s w buf remain len.

Definition mtdoutstream_puts (s : lib_mtdoutstream_s D) (w : world D)
           (buf : list byte) (len : Z)
  : outcome (Z * lib_mtdoutstream_s D * world D) :=
  let erasesize := to_size (erasesize (geo s)) in
  if to_size (int_add (nput s) len)
     >? size_mul erasesize (to_size (neraseblocks (geo s)))
  then Done (- ENOSPC, s, w)
  else if CONFIG_MTD_BYTE_WRITE then
    match inode s with
    | None => Undefined
    | Some d =>
        match write d with
        | Some _ => puts_direct d s w buf len
        | None => puts_buffered s w buf len
        end
    end
  else puts_buffered s w buf len.

(** *** mtdoutstream_putc *)

Definition mtdoutstream_putc (s : lib_mtdoutstream_s D) (w : world D) (ch : Z)
  : outcome (lib_mtdoutstream_s D * world D) :=
  match mtdoutstream_puts s w [char_of_int ch] 1 with
  | Done (_, s', w') => Done (s', w')
  | Undefined => Undefined
  | Diverged => Diverged
  end.

(** *** lib_mtdoutstream_close

    Modelled from the spec: [close_mtddriver] and [lib_free], which are
    not part of this file, are the release of the device handle and of the
    cache buffer, [release(handle) -> ()] in the words of the spec.  Each
    is recorded in the trace and leaves the driver state as it is. *)

Definition lib_mtdoutstream_close (stream : option (lib_mtdoutstream_s D))
           (w : world D) : option (lib_mtdoutstream_s D) * world D :=
  match stream with
  | None => (None, w)
  | Some s =>
      let w1 :=
        match inode s with
        | Some _ => emit w (dev w) EvCloseDriver
        | None => w
        end in
      let w2 :=
        match cache s with
        | Some _ => emit w1 (dev w1) EvFree
        | None => w1
        end in
      (Some {| nput := nput s; geo := geo s; inode := None; cache := None |},
       w2)
  end.

(** *** lib_mtdoutstream_open

    [find_mtddriver] and [lib_malloc], which are not part of this file,
    are parameters: the first gives its return value and the node it
    stored, the second the fresh buffer, [None] for a null pointer.  The
    stream the caller passes is uninitialised; what is returned with the
    value is the stream as open leaves it. *)

Definition zeroed : lib_mtdoutstream_s D :=
  {| nput := 0;
     geo := {| blocksize := 0; erasesize := 0; neraseblocks := 0 |};
     inode := None; cache := None |}.

Definition store_geometry (g : mtd_geometry_s) : mtd_geometry_s :=
  {| blocksize := to_uint32 (blocksize g);
     erasesize := to_uint32 (erasesize g);
     neraseblocks := to_uint32 (neraseblocks g) |}.

Definition lib_mtdoutstream_open
           (find_mtddriver : String.string -> Z * option (mtd_dev_s D))
           (lib_malloc : Z -> option (list byte))
           (stream : option (lib_mtdoutstream_s D))
           (name : option String.string) (w : world D)
  : outcome (Z * option (lib_mtdoutstream_s D) * world D) :=
  match stream, name with
  | Some _, Some nm =>
      let '(ret, node) := find_mtddriver nm in
      if ret <? 0 then Done (ret, stream, w)
      else
        match node with
        | None => Undefined
        | Some d =>
            match ioctl d, erase d, bwrite d with
            | Some io, Some _, Some _ =>
                let '(r, g, dv) := io (dev w) in
                let w1 := emit w dv EvGeometry in
                let g := store_geometry g in
                let s1 :=
                  {| nput := 0; geo := g; inode := None; cache := None |} in
                if (r <? 0) || (blocksize g <=? 0) || (erasesize g <=? 0)
                   || (neraseblocks g <=? 0)
                then Done (- EINVAL, Some s1, emit w1 (dev w1) EvCloseDriver)
                else if byte_write d
                then Done (OK,
                           Some {| nput := 0; geo := g; inode := Some d;
                                   cache := None |}, w1)
                else
                  match lib_malloc (to_size (erasesize g)) with
                  | None =>
                      Done (- ENOMEM, Some s1,
                            emit w1 (dev w1) EvCloseDriver)
                  | Some c =>
                      Done (OK,
                            Some {| nput := 0; geo := g; inode := Some d;
                                    cache := Some c |}, w1)
                  end
            | _, _, _ =>
                Done (- EINVAL, Some zeroed, emit w (dev w) EvCloseDriver)
            end
        end
  | _, _ => Done (- EINVAL, stream, w)
  end.

(** ** Well-formed streams *)

(** [erasesize * neraseblocks], the number of bytes the device holds. *)
Definition capacity (g : mtd_geometry_s) : Z := erasesize g * neraseblocks g.

(** The geometry of an open stream: positive, as [lib_mtdoutstream_open]
    checks, with a block size that fits [uint32_t] and a capacity that the
    [int] counter [nput] can reach. *)
Record geo_ok (g : mtd_geometry_s) : Prop := {
  blocksize_pos : 0 < blocksize g;
  blocksize_u32 : blocksize g < 2 ^ 32;
  erasesize_pos : 0 < erasesize g;
  neraseblocks_pos : 0 < neraseblocks g;
  capacity_int : capacity g <= INT_MAX
}.

(** An open stream on the driver [d]: the driver has the two methods
    that [lib_mtdoutstream_open] asks for, the position is within the
    device and, unless the driver is written byte by byte, the cache is
    one erase unit long. *)
Record stream_ok (d : mtd_dev_s D) (s : lib_mtdoutstream_s D) : Prop := {
  ok_geo : geo_ok (geo s);
  ok_nput : 0 <= nput s <= capacity (geo s);
  ok_inode : inode s = Some d;
  ok_erase : erase d <> None;
  ok_bwrite : bwrite d <> None;
  ok_cache : byte_write d = false ->
             exists c, cache s = Some c /\ buflen c = erasesize (geo s)
}.

(** ** Sequences of calls on an open stream *)

Inductive call : Type :=
| CallPuts (buf : list byte) (len : Z)
| CallPutc (ch : Z)
| CallFlush.

(** A call the caller may make: the length is not negative and the buffer
    holds that many bytes. *)
Definition call_ok (c : call) : Prop :=
  match c with
  | CallPuts buf len => 0 <= len <= INT_MAX /\ len <= buflen buf
  | CallPutc _ => True
  | CallFlush => True
  end.

Definition run_call (c : call) (s : lib_mtdoutstream_s D) (w : world D)
  : outcome (lib_mtdoutstream_s D * world D) :=
  match c with
  | CallPuts buf len =>
      match mtdoutstream_puts s w buf len with
      | Done (_, s', w') => Done (s', w')
      | Undefined => Undefined
      | Diverged => Diverged
      end
  | CallPutc ch => mtdoutstream_putc s w ch
  | CallFlush =>
      match mtdoutstream_flush s w with
      | Done (_, s', w') => Done (s', w')
      | Undefined => Undefined
      | Diverged => Diverged
      end
  end.

(** The allocator returns buffers of the size asked for. *)
Definition malloc_ok (lib_malloc : Z -> option (list byte)) : Prop :=
  forall n c, lib_malloc n = Some c -> buflen c = n.

(** The states of a stream from a successful open on. *)
Inductive reachable
          (find_mtddriver : String.string -> Z * option (mtd_dev_s D))
          (lib_malloc : Z -> option (list byte))
  : lib_mtdoutstream_s D -> world D -> Prop :=
| reach_open : forall st name w0 s w,
    lib_mtdoutstream_open find_mtddriver lib_malloc st name w0
    = Done (OK, Some s, w) ->
    reachable find_mtddriver lib_malloc s w
| reach_call : forall s w c s' w',
    reachable find_mtddriver lib_malloc s w ->
    call_ok c ->
    run_call c s w = Done (s', w') ->
    reachable find_mtddriver lib_malloc s' w'.

(** ** Predicates of the proofs *)

(** The number of erase units that begin before byte [x]: the quotient of
    lines 107 and 108, rounded up. *)
Definition units_up_to (es x : Z) : Z := (x + es - 1) / es.

(** Between the worlds [w] and [w'] the driver was called, and never
    reported an error. *)
Definition ran_clean (w w' : world D) : Prop :=
  exists evs, trace w' = trace w ++ evs /\ no_error evs.

(** Between the worlds [w] and [w'] the driver was called, and reported
    the error [ret] in the last call, the first to fail. *)
Definition ran_into (w w' : world D) (ret : Z) : Prop :=
  exists evs e,
    trace w' = trace w ++ evs ++ [e] /\ no_error evs /\
    event_ret e = ret /\ ret < 0.

(** What holds at the head of the loop. *)
Record loop_inv (d : mtd_dev_s D) (s : lib_mtdoutstream_s D)
       (ptr : list byte) (remain : Z) : Prop := {
  li_geo : geo_ok (geo s);
  li_pos : 0 <= nput s;
  li_rem : 0 <= remain;
  li_room : nput s + remain <= capacity (geo s);
  li_inode : inode s = Some d;
  li_erase : erase d <> None;
  li_bwrite : bwrite d <> None;
  li_cache : exists c, cache s = Some c /\ buflen c = erasesize (geo s);
  li_ptr : remain <= buflen ptr
}.

(** What a pass through the body leaves behind. *)
Definition iter_post (d : mtd_dev_s D) (s : lib_mtdoutstream_s D)
           (w : world D) (remain : Z) (ctl : loop_ctl) : Prop :=
  match ctl with
  | Continue s' w' ptr' remain' =>
      loop_inv d s' ptr' remain' /\ remain' < remain /\
      nput s' + remain' = nput s + remain /\ geo s' = geo s /\
      ran_clean w w'
  | Return ret s' w' =>
      ran_into w w' ret /\
      nput s <= nput s' <= capacity (geo s) /\
      geo s' = geo s /\ inode s' = inode s /\
      exists c, cache s' = Some c /\ buflen c = erasesize (geo s)
  end.

(** What the loop leaves behind when it is left. *)
Definition loop_post (d : mtd_dev_s D) (s : lib_mtdoutstream_s D)
           (w : world D) (remain len ret : Z) (s' : lib_mtdoutstream_s D)
           (w' : world D) : Prop :=
  (ret = len /\ nput s' = nput s + remain /\ ran_clean w w' \/
   ran_into w w' ret) /\
  nput s <= nput s' <= capacity (geo s) /\
  geo s' = geo s /\ inode s' = inode s /\
  exists c, cache s' = Some c /\ buflen c = erasesize (geo s).

(** What a call of [mtdoutstream_puts] leaves behind. *)
Definition puts_post (d : mtd_dev_s D) (s : lib_mtdoutstream_s D)
           (w : world D) (len ret : Z) (s' : lib_mtdoutstream_s D)
           (w' : world D) : Prop :=
  (nput s + len <= capacity (geo s) ->
   ret = len /\ nput s' = nput s + len /\ ran_clean w w' \/
   ran_into w w' ret) /\
  (capacity (geo s) < nput s + len -> ret = - ENOSPC /\ s' = s /\ w' = w) /\
  nput s <= nput s' /\ geo s' = geo s /\ stream_ok d s'.

(** What the idempotence of flush asks of a driver whose state is the
    content of the device: erasing again what was just erased changes
    nothing and reports the same, and erasing a unit forgets what was
    programmed into its blocks since it was erased. *)
Record flash_laws (g : mtd_geometry_s) (d : mtd_dev_s D) : Prop := {
  erase_again :
    forall f dv b n r dv',
      erase d = Some f -> f dv b n = (r, dv') -> f dv' b n = (r, dv');
  erase_after_program :
    forall f h dv b r dv1 buf r2 dv2,
      erase d = Some f -> bwrite d = Some h ->
      f dv b 1 = (r, dv1) -> 0 <= r ->
      h dv1 (b * (erasesize g / blocksize g))
        (erasesize g / blocksize g) buf = (r2, dv2) ->
      f dv2 b 1 = (r, dv1)
}.

(** A driver call that touches no byte of the device below [lo] and none
    at or beyond its capacity. *)
Definition call_within (g : mtd_geometry_s) (lo : Z) (e : mtd_event) : Prop :=
  match e with
  | EvErase b n _ =>
      lo <= b * erasesize g /\ 0 < n /\ (b + n) * erasesize g <= capacity g
  | EvBWrite b n _ _ =>
      lo <= b * blocksize g /\ 0 <= n /\ (b + n) * blocksize g <= capacity g
  | EvWrite o n _ _ => lo <= o /\ 0 <= n /\ o + n <= capacity g
  | _ => True
  end.

(** The bytes of the device that the stream has committed for good: up to
    the position on a driver with byte writes, up to the start of the unit
    being filled on a driver without. *)
Definition committed (d : mtd_dev_s D) (s : lib_mtdoutstream_s D) : Z :=
  if byte_write d then nput s
  else nput s - nput s mod erasesize (geo s).

(** ** What the device holds

    [read dv a] is the byte at address [a] of the device when the driver
    is in the state [dv]. *)







(** ** Machine arithmetic within range *)

Hypothesis size_bits_ge : 32 <= size_bits.

Lemma size_range : 2 ^ 32 <= 2 ^ size_bits.
Proof. apply Z.pow_le_mono_r; lia. Qed.

Lemma to_size_small (z : Z) : 0 <= z < 2 ^ 32 -> to_size z = z.
Proof.
  intros Hz. unfold to_size. apply Z.mod_small.
  pose proof size_range. lia.
Qed.

Lemma to_int_small (z : Z) : - 2 ^ 31 <= z < 2 ^ 31 -> to_int z = z.
Proof.
  intros Hz. unfold to_int. rewrite Z.mod_small; lia.
Qed.

Lemma to_size_neg (z : Z) :
  - 2 ^ 31 <= z < 0 -> 2 ^ 31 <= to_size z.
Proof.
  intros Hz. unfold to_size.
  pose proof size_range as Hr.
  replace z with (z + 2 ^ size_bits + (-1) * 2 ^ size_bits) by ring.
  rewrite Z.mod_add by lia. rewrite Z.mod_small; lia.
Qed.

Lemma to_size_wrapped (z : Z) :
  - 2 ^ 32 <= z < 0 -> to_size z = z + 2 ^ size_bits.
Proof.
  intros Hz. unfold to_size. pose proof size_range as Hr.
  symmetry. apply Z.mod_unique with (q := -1); lia.
Qed.

Lemma to_int_overflow (z : Z) :
  2 ^ 31 <= z < 2 ^ 32 -> to_int z = z - 2 ^ 32.
Proof.
  intros Hz. unfold to_int.
  replace (z + 2 ^ 31) with (z - 2 ^ 31 + 1 * 2 ^ 32) by ring.
  rewrite Z.mod_add by lia. rewrite Z.mod_small; lia.
Qed.

Lemma div_mul_le (a b : Z) : 0 <= a -> 0 < b -> 0 <= a / b * b <= a.
Proof.
  intros Ha Hb. pose proof (Z.mul_div_le a b Hb).
  pose proof (Z.div_pos a b Ha Hb). nia.
Qed.

Lemma geo_ok_bounds (g : mtd_geometry_s) :
  geo_ok g ->
  0 < erasesize g <= capacity g /\ 0 < neraseblocks g <= capacity g /\
  capacity g < 2 ^ 31.
Proof.
  intros [Hb Hb32 He Hn Hc]. unfold capacity, INT_MAX in *.
  repeat split; try lia; nia.
Qed.

Lemma to_size_erasesize (g : mtd_geometry_s) :
  geo_ok g -> to_size (erasesize g) = erasesize g.
Proof.
  intros Hg. destruct (geo_ok_bounds g Hg) as (? & ? & ?).
  apply to_size_small. lia.
Qed.

Lemma to_size_blocksize (g : mtd_geometry_s) :
  geo_ok g -> to_size (blocksize g) = blocksize g.
Proof.
  intros Hg. apply to_size_small. destruct Hg. lia.
Qed.

Lemma size_capacity (g : mtd_geometry_s) :
  geo_ok g ->
  size_mul (to_size (erasesize g)) (to_size (neraseblocks g)) = capacity g.
Proof.
  intros Hg. destruct (geo_ok_bounds g Hg) as (? & ? & ?).
  unfold size_mul.
  rewrite (to_size_small (erasesize g)), (to_size_small (neraseblocks g))
    by lia.
  apply to_size_small. unfold capacity in *. lia.
Qed.

(** The test of line 99 decides [capacity < nput + len]. *)
Lemma capacity_check (g : mtd_geometry_s) (pos len : Z) :
  geo_ok g -> 0 <= pos <= capacity g -> 0 <= len <= INT_MAX ->
  (to_size (int_add pos len)
   >? size_mul (to_size (erasesize g)) (to_size (neraseblocks g)))
  = (capacity g <? pos + len).
Proof.
  intros Hg Hp Hl. rewrite size_capacity by assumption.
  destruct (geo_ok_bounds g Hg) as (_ & _ & Hc).
  unfold int_add, INT_MAX in *.
  destruct (Z_lt_le_dec (pos + len) (2 ^ 31)) as [Hs | Hs].
  - rewrite to_int_small, to_size_small by lia.
    rewrite Z.gtb_ltb. reflexivity.
  - rewrite to_int_overflow by lia.
    assert (Hn : 2 ^ 31 <= to_size (pos + len - 2 ^ 32))
      by (apply to_size_neg; lia).
    rewrite Z.gtb_ltb.
    transitivity true; [ apply Z.ltb_lt | symmetry; apply Z.ltb_lt ]; lia.
Qed.

(** [copyin] of line 137 is the smaller of what remains to be written
    and what is left of the erase unit. *)
Lemma copyin_partial_min (es offset remain : Z) :
  0 <= offset < es -> es < 2 ^ 31 -> 0 <= remain < 2 ^ 31 ->
  copyin_partial es offset remain = Z.min remain (es - offset).
Proof.
  intros Ho He Hr. unfold copyin_partial, size_add, size_sub.
  rewrite (to_size_small (offset + remain)) by lia.
  rewrite (to_size_small (es - offset)) by lia.
  rewrite Z.gtb_ltb.
  destruct (es <? offset + remain) eqn:E;
    [ apply Z.ltb_lt in E | apply Z.ltb_ge in E ]; lia.
Qed.

(** ** Buffers *)

Lemma buflen_nonneg (b : list byte) : 0 <= buflen b.
Proof. unfold buflen. lia. Qed.

Lemma memcpy_in_bounds (dst src : list byte) (off n : Z) :
  0 <= off -> 0 <= n -> off + n <= buflen dst -> n <= buflen src ->
  memcpy dst off src n
  = Some (firstn (Z.to_nat off) dst ++ firstn (Z.to_nat n) src
            ++ skipn (Z.to_nat (off + n)) dst).
Proof.
  intros Ho Hn Hd Hs. unfold memcpy.
  replace (0 <=? off) with true by (symmetry; apply Z.leb_le; lia).
  replace (0 <=? n) with true by (symmetry; apply Z.leb_le; lia).
  replace (off + n <=? buflen dst) with true
    by (symmetry; apply Z.leb_le; lia).
  replace (n <=? buflen src) with true by (symmetry; apply Z.leb_le; lia).
  reflexivity.
Qed.

Lemma memset_in_bounds (dst : list byte) (c : byte) (n : Z) :
  0 <= n <= buflen dst ->
  memset dst c n = Some (repeat c (Z.to_nat n) ++ skipn (Z.to_nat n) dst).
Proof.
  intros Hn. unfold memset.
  replace (0 <=? n) with true by (symmetry; apply Z.leb_le; lia).
  replace (n <=? buflen dst) with true by (symmetry; apply Z.leb_le; lia).
  reflexivity.
Qed.

Lemma buflen_splice (dst src : list byte) (off n : Z) :
  0 <= off -> 0 <= n -> off + n <= buflen dst -> n <= buflen src ->
  buflen (firstn (Z.to_nat off) dst ++ firstn (Z.to_nat n) src
            ++ skipn (Z.to_nat (off + n)) dst) = buflen dst.
Proof.
  unfold buflen. intros Ho Hn Hd Hs.
  rewrite !length_app, !length_firstn, length_skipn. lia.
Qed.

Lemma skipn_repeat (A : Type) (x : A) (n m : nat) :
  skipn n (repeat x m) = repeat x (m - n).
Proof.
  revert m. induction n as [| n IH]; intros m.
  - rewrite Nat.sub_0_r. reflexivity.
  - destruct m as [| m]; [ reflexivity | simpl; apply IH ].
Qed.

(** Zero-filling a whole cache and copying [n] bytes to its start. *)
Lemma zero_fill_then_copy (c src : list byte) (es n : Z) :
  buflen c = es -> 0 <= n <= es -> n <= buflen src ->
  exists c0, memset c x00 es = Some c0 /\
             memcpy c0 0 src n
             = Some (firstn (Z.to_nat n) src
                       ++ repeat x00 (Z.to_nat (es - n))).
Proof.
  intros Hc Hn Hs. pose proof (buflen_nonneg src).
  eexists. split.
  - apply memset_in_bounds. lia.
  - assert (Hnil : skipn (Z.to_nat es) c = []).
    { apply skipn_all2. unfold buflen in Hc. lia. }
    rewrite Hnil, app_nil_r.
    rewrite memcpy_in_bounds;
      try (unfold buflen; rewrite repeat_length); try lia.
    simpl. rewrite skipn_repeat. do 3 f_equal. lia.
Qed.

(** ** The capacity guard *)

(** C1. A [mtdoutstream_puts] call with [nput + len] beyond
    [erasesize * neraseblocks] returns [-ENOSPC] and leaves the stream
    (position and cache) and the world (driver state and trace) as they
    were.  The guard precedes the choice between the byte-write branch and
    the buffered loop, so the statement reads the same for both; it asks
    of the stream only that its fields are within their C types, with a
    position that is not negative and a block size that is not zero (line
    95 divides by it). *)
Theorem puts_nospace (s : lib_mtdoutstream_s D) (w : world D)
        (buf : list byte) (len : Z) :
  0 < blocksize (geo s) < 2 ^ 32 ->
  0 <= erasesize (geo s) < 2 ^ 32 ->
  0 <= neraseblocks (geo s) < 2 ^ 32 ->
  0 <= nput s <= INT_MAX ->
  0 <= len <= INT_MAX ->
  erasesize (geo s) * neraseblocks (geo s) < nput s + len ->
  mtdoutstream_puts s w buf len = Done (- ENOSPC, s, w).
Proof.
  intros _ He Hn Hp Hl Hover. unfold mtdoutstream_puts, INT_MAX in *.
  pose proof size_range as Hsz.
  assert (Hcap : 0 <= erasesize (geo s) * neraseblocks (geo s)) by nia.
  unfold size_mul.
  rewrite (to_size_small (erasesize (geo s))),
    (to_size_small (neraseblocks (geo s))) by lia.
  rewrite (to_size_small (_ * _)) by lia.
  replace (to_size (int_add (nput s) len)
           >? erasesize (geo s) * neraseblocks (geo s)) with true;
    [ reflexivity | ].
  symmetry. apply Z.gtb_lt. unfold int_add.
  destruct (Z_lt_le_dec (nput s + len) (2 ^ 31)) as [Hs | Hs].
  - rewrite to_int_small, to_size_small by lia. exact Hover.
  - rewrite to_int_overflow by lia.
    rewrite to_size_wrapped by lia. lia.
Qed.

(** ** One pass through the loop body, without the wrap-around *)

Section Iteration.

Variable s : lib_mtdoutstream_s D.
Variable w : world D.
Variable ptr : list byte.
Variable remain : Z.

Hypothesis Hgeo : geo_ok (geo s).
Hypothesis Hpos : 0 <= nput s.
Hypothesis Hrem : 0 < remain.
Hypothesis Hroom : nput s + remain <= capacity (geo s).

Let es := erasesize (geo s).
Let bs := blocksize (geo s).
Let off := nput s mod es.

Lemma iter_ranges :
  0 < es /\ es < 2 ^ 31 /\ nput s + remain < 2 ^ 31 /\
  0 <= off < es /\ 0 <= nput s / es /\
  nput s = es * (nput s / es) + off /\
  0 < bs /\ 0 <= es / bs /\ es / bs * bs <= es.
Proof.
  destruct (geo_ok_bounds _ Hgeo) as ((He & He') & _ & Hc).
  pose proof (blocksize_pos _ Hgeo) as Hb.
  fold es in He, He'. fold bs in Hb.
  pose proof (Z.mod_pos_bound (nput s) es He).
  pose proof (Z.div_pos (nput s) es Hpos He).
  pose proof (Z.div_mod (nput s) es ltac:(lia)).
  pose proof (div_mul_le es bs ltac:(lia) Hb).
  pose proof (Z.div_pos es bs ltac:(lia) Hb).
  unfold off. repeat split; try lia.
Qed.

(** Lines 135-162: a unit is partly filled. *)
Lemma iter_partial (c : list byte) :
  0 < off -> cache s = Some c -> buflen c = es -> remain <= buflen ptr ->
  puts_iter s w ptr remain =
  let copyin := Z.min remain (es - off) in
  let c' := firstn (Z.to_nat off) c ++ firstn (Z.to_nat copyin) ptr
              ++ skipn (Z.to_nat (off + copyin)) c in
  let s' := {| nput := nput s + copyin; geo := geo s; inode := inode s;
               cache := Some c' |} in
  if off + copyin =? es then
    match inode s with
    | None => Undefined
    | Some d =>
        let '(ret, w1) := MTD_ERASE d w (nput s / es) 1 in
        if ret <? 0 then Done (Return ret s' w1)
        else
          let '(ret, w2) :=
            MTD_BWRITE d w1 (nput s / es * (es / bs)) (es / bs) c' in
          if ret <? 0 then Done (Return ret s' w2)
          else Done (Continue s' w2 (skipn (Z.to_nat copyin) ptr)
                              (remain - copyin))
    end
  else Done (Continue s' w (skipn (Z.to_nat copyin) ptr) (remain - copyin)).
Proof.
  intros Hoff Hc Hlen Hptr.
  destruct iter_ranges as (He & He' & Hsum & Ho & Hq & Hdm & Hb & Hn & Hnb).
  unfold puts_iter.
  rewrite to_size_erasesize, to_size_blocksize by assumption.
  rewrite (to_size_small (nput s)) by lia.
  fold es. fold bs. fold off.
  replace (off >? 0) with true by (symmetry; apply Z.gtb_lt; lia).
  rewrite copyin_partial_min by lia.
  rewrite Hc.
  rewrite memcpy_in_bounds by lia.
  unfold size_add, size_sub, size_mul.
  rewrite (to_size_small (nput s + _)) by lia.
  rewrite to_int_small by lia.
  rewrite (to_size_small (off + _)) by lia.
  rewrite (to_size_small (remain - _)) by lia.
  rewrite (to_size_small (nput s / es * (es / bs))) by nia.
  reflexivity.
Qed.

(** Lines 163-173: a new unit is begun with less than a unit to write. *)
Lemma iter_fresh (c : list byte) :
  off = 0 -> remain < es -> cache s = Some c -> buflen c = es ->
  remain <= buflen ptr ->
  puts_iter s w ptr remain =
  Done (Continue
          {| nput := nput s + remain; geo := geo s; inode := inode s;
             cache := Some (firstn (Z.to_nat remain) ptr
                              ++ repeat x00 (Z.to_nat (es - remain))) |}
          w ptr 0).
Proof.
  intros Hoff Hlt Hc Hlen Hptr.
  destruct iter_ranges as (He & He' & Hsum & Ho & Hq & Hdm & Hb & Hn & Hnb).
  unfold puts_iter.
  rewrite to_size_erasesize, to_size_blocksize by assumption.
  rewrite (to_size_small (nput s)) by lia.
  fold es. fold bs. fold off. rewrite Hoff.
  replace (0 >? 0) with false by reflexivity.
  replace (remain <? es) with true by (symmetry; apply Z.ltb_lt; lia).
  rewrite Hc.
  destruct (zero_fill_then_copy c ptr es remain) as (c0 & H0 & H1);
    try lia.
  rewrite H0, H1.
  unfold size_add.
  rewrite (to_size_small (nput s + _)) by lia.
  rewrite to_int_small by lia.
  reflexivity.
Qed.

(** Lines 174-195: whole units are written from the caller's buffer. *)
Lemma iter_bulk (d : mtd_dev_s D) :
  off = 0 -> es <= remain -> inode s = Some d ->
  puts_iter s w ptr remain =
  let nblock := remain / es in
  let '(ret, w1) := MTD_ERASE d w (nput s / es) nblock in
  if ret <? 0 then Done (Return ret s w1)
  else
    let '(ret, w2) :=
      MTD_BWRITE d w1 (nput s / es * (es / bs)) (nblock * (es / bs)) ptr in
    if ret <? 0 then Done (Return ret s w2)
    else Done (Continue (set_nput s (nput s + nblock * es)) w2
                        (skipn (Z.to_nat (nblock * es)) ptr)
                        (remain - nblock * es)).
Proof.
  intros Hoff Hge Hd.
  destruct iter_ranges as (He & He' & Hsum & Ho & Hq & Hdm & Hb & Hn & Hnb).
  pose proof (div_mul_le remain es ltac:(lia) He) as Hblk.
  unfold puts_iter.
  rewrite to_size_erasesize, to_size_blocksize by assumption.
  rewrite (to_size_small (nput s)) by lia.
  fold es. fold bs. fold off. rewrite Hoff.
  replace (0 >? 0) with false by reflexivity.
  replace (remain <? es) with false by (symmetry; apply Z.ltb_ge; lia).
  rewrite Hd.
  unfold size_add, size_sub, size_mul.
  rewrite (to_size_small (remain / es * es)) by lia.
  rewrite (to_size_small (nput s + _)) by lia.
  rewrite to_int_small by lia.
  rewrite (to_size_small (remain - _)) by lia.
  rewrite (to_size_small (nput s / es * (es / bs))) by nia.
  rewrite (to_size_small (remain / es * (es / bs))) by nia.
  reflexivity.
Qed.

End Iteration.

(** ** The driver macros *)

Lemma MTD_ERASE_run (d : mtd_dev_s D) (w : world D) (b n : Z) :
  erase d <> None ->
  exists r dv, MTD_ERASE d w b n = (r, emit w dv (EvErase b n r)).
Proof.
  intros Hsome. unfold MTD_ERASE.
  destruct (erase d) as [f |]; [ | congruence ].
  destruct (f (dev w) b n) as [r dv]. exists r, dv. reflexivity.
Qed.

Lemma MTD_BWRITE_run (d : mtd_dev_s D) (w : world D) (b n : Z)
      (buf : list byte) :
  bwrite d <> None ->
  exists r dv, MTD_BWRITE d w b n buf = (r, emit w dv (EvBWrite b n buf r)).
Proof.
  intros Hsome. unfold MTD_BWRITE.
  destruct (bwrite d) as [f |]; [ | congruence ].
  destruct (f (dev w) b n buf) as [r dv]. exists r, dv. reflexivity.
Qed.

Lemma MTD_WRITE_run (d : mtd_dev_s D) (w : world D) (o n : Z)
      (buf : list byte) :
  write d <> None ->
  exists r dv, MTD_WRITE d w o n buf = (r, emit w dv (EvWrite o n buf r)).
Proof.
  intros Hsome. unfold MTD_WRITE.
  destruct (write d) as [f |]; [ | congruence ].
  destruct (f (dev w) o n buf) as [r dv]. exists r, dv. reflexivity.
Qed.

Lemma MTD_ERASE_trace (d : mtd_dev_s D) (w : world D) (b n r : Z)
      (w1 : world D) :
  erase d <> None -> MTD_ERASE d w b n = (r, w1) ->
  trace w1 = trace w ++ [EvErase b n r].
Proof.
  intros Hsome Hrun.
  destruct (MTD_ERASE_run d w b n Hsome) as (r' & dv & Heq).
  rewrite Heq in Hrun. inversion Hrun; subst. reflexivity.
Qed.


Lemma MTD_WRITE_trace (d : mtd_dev_s D) (w : world D) (o n : Z)
      (buf : list byte) (r : Z) (w1 : world D) :
  write d <> None -> MTD_WRITE d w o n buf = (r, w1) ->
  trace w1 = trace w ++ [EvWrite o n buf r].
Proof.
  intros Hsome Hrun.
  destruct (MTD_WRITE_run d w o n buf Hsome) as (r' & dv & Heq).
  rewrite Heq in Hrun. inversion Hrun; subst. reflexivity.
Qed.

Lemma not_neg (r : Z) : 0 <= r -> (r <? 0) = false.
Proof. intros H. apply Z.ltb_ge. exact H. Qed.

(** ** Traces *)

Lemma ran_clean_refl (w : world D) : ran_clean w w.
Proof.
  exists []. split; [ symmetry; apply app_nil_r | constructor ].
Qed.

Lemma ran_clean_emit (w w1 : world D) (dv : D) (e : mtd_event) :
  ran_clean w w1 -> 0 <= event_ret e -> ran_clean w (emit w1 dv e).
Proof.
  intros (evs & Htr & Hok) He. exists (evs ++ [e]). split.
  - simpl. rewrite Htr, app_assoc. reflexivity.
  - apply Forall_app. split; [ exact Hok | ]. constructor; [ exact He | ].
    constructor.
Qed.

Lemma ran_into_emit (w w1 : world D) (dv : D) (e : mtd_event) :
  ran_clean w w1 -> event_ret e < 0 -> ran_into w (emit w1 dv e) (event_ret e).
Proof.
  intros (evs & Htr & Hok) He. exists evs, e. split.
  - simpl. rewrite Htr, app_assoc. reflexivity.
  - split; [ exact Hok | ]. split; [ reflexivity | exact He ].
Qed.

Lemma ran_clean_trans (w w1 w2 : world D) :
  ran_clean w w1 -> ran_clean w1 w2 -> ran_clean w w2.
Proof.
  intros (evs1 & H1 & Hok1) (evs2 & H2 & Hok2). exists (evs1 ++ evs2). split.
  - rewrite H2, H1, app_assoc. reflexivity.
  - apply Forall_app. split; assumption.
Qed.

Lemma ran_clean_into (w w1 w2 : world D) (ret : Z) :
  ran_clean w w1 -> ran_into w1 w2 ret -> ran_into w w2 ret.
Proof.
  intros (evs1 & H1 & Hok1) (evs2 & e & H2 & Hok2 & He & Hneg).
  exists (evs1 ++ evs2), e. split.
  - rewrite H2, H1, !app_assoc. reflexivity.
  - split; [ apply Forall_app; split; assumption | ].
    split; assumption.
Qed.


(** ** The loop of the buffered path *)

Lemma puts_loop_end (fuel : nat) (s : lib_mtdoutstream_s D) (w : world D)
      (ptr : list byte) (len : Z) :
  puts_loop fuel s w ptr 0 len = Done (len, s, w).
Proof. destruct fuel; reflexivity. Qed.

Lemma puts_loop_step (fuel : nat) (s : lib_mtdoutstream_s D) (w : world D)
      (ptr : list byte) (remain len : Z) :
  0 < remain ->
  puts_loop (S fuel) s w ptr remain len =
  match puts_iter s w ptr remain with
  | Done (Continue s' w' ptr' remain') =>
      puts_loop fuel s' w' ptr' remain' len
  | Done (Return ret s' w') => Done (ret, s', w')
  | Undefined => Undefined
  | Diverged => Diverged
  end.
Proof.
  intros Hr. simpl.
  replace (remain >? 0) with true by (symmetry; apply Z.gtb_lt; lia).
  reflexivity.
Qed.

Lemma iter_step (d : mtd_dev_s D) (s : lib_mtdoutstream_s D) (w : world D)
      (ptr : list byte) (remain : Z) :
  loop_inv d s ptr remain -> 0 < remain ->
  exists ctl,
    puts_iter s w ptr remain = Done ctl /\ iter_post d s w remain ctl.
Proof.
  intros [Hg Hp Hr Hroom Hd Hfe Hfb (c & Hc & Hlen) Hptr] Hpos.
  destruct (iter_ranges s remain Hg Hp Hroom)
    as (He & He' & Hsum & Ho & Hq & Hdm & Hb & Hn & Hnb).
  set (es := erasesize (geo s)) in *.
  set (off := nput s mod es) in *.
  destruct (Z_lt_le_dec 0 off) as [Hoff | Hoff].
  - (* a unit is partly filled *)
    rewrite (iter_partial s w ptr remain Hg Hp Hpos Hroom c Hoff Hc Hlen Hptr).
    fold es. fold off. cbv zeta.
    set (copyin := Z.min remain (es - off)).
    assert (Hcp : 0 < copyin <= remain /\ off + copyin <= es)
      by (unfold copyin; lia).
    assert (Hbuf : buflen (firstn (Z.to_nat off) c
                             ++ firstn (Z.to_nat copyin) ptr
                             ++ skipn (Z.to_nat (off + copyin)) c) = es).
    { rewrite buflen_splice; lia. }
    assert (Hskip : remain - copyin
                    <= buflen (skipn (Z.to_nat copyin) ptr)).
    { unfold buflen in *. rewrite length_skipn. lia. }
    set (s' := {| nput := nput s + copyin; geo := geo s; inode := inode s;
                  cache := Some (firstn (Z.to_nat off) c
                                   ++ firstn (Z.to_nat copyin) ptr
                                   ++ skipn (Z.to_nat (off + copyin)) c) |}).
    assert (Hnext : forall w',
               ran_clean w w' ->
               iter_post d s w remain
                 (Continue s' w' (skipn (Z.to_nat copyin) ptr)
                           (remain - copyin))).
    { intros w' Hrun. simpl.
      split; [ | split; [ lia | split; [ simpl; lia | ] ] ].
      - constructor; simpl; try assumption; try lia.
        eexists. split; [ reflexivity | exact Hbuf ].
      - split; [ reflexivity | exact Hrun ]. }
    assert (Hfail : forall ret w',
               ran_into w w' ret -> iter_post d s w remain (Return ret s' w')).
    { intros ret w' Hrun. simpl.
      split; [ exact Hrun | ].
      split; [ simpl; lia | ]. split; [ reflexivity | ].
      split; [ reflexivity | ].
      eexists. split; [ reflexivity | exact Hbuf ]. }
    destruct (off + copyin =? es);
      [ | eexists; split; [ reflexivity | apply Hnext, ran_clean_refl ] ].
    rewrite Hd.
    destruct (MTD_ERASE_run d w (nput s / es) 1 Hfe) as (r1 & dv1 & ->).
    destruct (r1 <? 0) eqn:Hr1.
    + apply Z.ltb_lt in Hr1. eexists. split; [ reflexivity | ].
      apply Hfail.
      apply (ran_into_emit w w dv1 (EvErase (nput s / es) 1 r1));
        [ apply ran_clean_refl | exact Hr1 ].
    + apply Z.ltb_ge in Hr1.
      match goal with
      | |- context [MTD_BWRITE ?a ?b ?x ?y ?z] =>
          destruct (MTD_BWRITE_run a b x y z Hfb) as (r2 & dv2 & ->)
      end.
      assert (Hclean1 : ran_clean w (emit w dv1 (EvErase (nput s / es) 1 r1))).
      { apply ran_clean_emit; [ apply ran_clean_refl | exact Hr1 ]. }
      destruct (r2 <? 0) eqn:Hr2.
      * apply Z.ltb_lt in Hr2. eexists. split; [ reflexivity | ].
        apply Hfail.
        match goal with
        | |- ran_into _ (emit ?w1 ?dv ?e) _ =>
            apply (ran_into_emit w w1 dv e); [ exact Hclean1 | exact Hr2 ]
        end.
      * apply Z.ltb_ge in Hr2. eexists. split; [ reflexivity | ].
        apply Hnext. apply ran_clean_emit; [ exact Hclean1 | exact Hr2 ].
  - assert (Hoff0 : off = 0) by lia.
    destruct (Z_lt_le_dec remain es) as [Hlt | Hge].
    + (* a new unit, less than a unit to write *)
      rewrite (iter_fresh s w ptr remain Hg Hp Hpos Hroom c Hoff0 Hlt Hc Hlen
                          Hptr).
      eexists. split; [ reflexivity | ].
      simpl. split; [ | split; [ lia | split; [ simpl; lia | ] ] ].
      * constructor; simpl; try assumption; try lia.
        eexists. split; [ reflexivity | ].
        unfold buflen in *. rewrite length_app, length_firstn, repeat_length.
        fold es. lia.
      * split; [ reflexivity | apply ran_clean_refl ].
    + (* whole units *)
      rewrite (iter_bulk s w ptr remain Hg Hp Hpos Hroom d Hoff0 Hge Hd).
      fold es. cbv zeta.
      pose proof (div_mul_le remain es ltac:(lia) He) as Hblk.
      assert (Hone : 1 <= remain / es).
      { apply Z.div_le_lower_bound; lia. }
      pose proof (Z.mod_pos_bound remain es He) as Hm.
      pose proof (Z.div_mod remain es ltac:(lia)) as Hdm'.
      assert (Hfail : forall ret w',
                 ran_into w w' ret -> iter_post d s w remain (Return ret s w')).
      { intros ret w' Hrun. simpl.
        split; [ exact Hrun | ].
        split; [ lia | ]. split; [ reflexivity | ]. split; [ reflexivity | ].
        exists c. split; assumption. }
      destruct (MTD_ERASE_run d w (nput s / es) (remain / es) Hfe)
        as (r1 & dv1 & ->).
      destruct (r1 <? 0) eqn:Hr1.
      * apply Z.ltb_lt in Hr1. eexists. split; [ reflexivity | ].
        apply Hfail.
        match goal with
        | |- ran_into _ (emit ?w1 ?dv ?e) _ =>
            apply (ran_into_emit w w1 dv e);
              [ apply ran_clean_refl | exact Hr1 ]
        end.
      * apply Z.ltb_ge in Hr1.
        match goal with
        | |- context [MTD_BWRITE ?a ?b ?x ?y ?z] =>
            destruct (MTD_BWRITE_run a b x y z Hfb) as (r2 & dv2 & ->)
        end.
        assert (Hclean1 :
                 ran_clean w (emit w dv1
                                   (EvErase (nput s / es) (remain / es) r1))).
        { apply ran_clean_emit; [ apply ran_clean_refl | exact Hr1 ]. }
        destruct (r2 <? 0) eqn:Hr2.
        -- apply Z.ltb_lt in Hr2. eexists. split; [ reflexivity | ].
           apply Hfail.
           match goal with
           | |- ran_into _ (emit ?w1 ?dv ?e) _ =>
               apply (ran_into_emit w w1 dv e); [ exact Hclean1 | exact Hr2 ]
           end.
        -- apply Z.ltb_ge in Hr2. eexists. split; [ reflexivity | ].
           simpl. split; [ | split; [ lia | split; [ simpl; lia | ] ] ].
           ++ constructor; simpl; try assumption; try lia.
              ** exists c. split; assumption.
              ** unfold buflen in *. rewrite length_skipn. lia.
           ++ split; [ reflexivity | ].
              apply ran_clean_emit; [ exact Hclean1 | exact Hr2 ].
Qed.

(** The loop ends, without undefined behaviour, within
    [Z.to_nat remain + 1] passes. *)
Lemma puts_loop_spec (d : mtd_dev_s D) (len : Z) (fuel : nat) :
  forall (s : lib_mtdoutstream_s D) (w : world D) (ptr : list byte)
         (remain : Z),
    loop_inv d s ptr remain -> (Z.to_nat remain < fuel)%nat ->
    exists ret s' w',
      puts_loop fuel s w ptr remain len = Done (ret, s', w') /\
      loop_post d s w remain len ret s' w'.
Proof.
  induction fuel as [| fuel IH]; intros s w ptr remain Hinv Hfuel; [ lia | ].
  destruct (Z.eq_dec remain 0) as [-> | Hne].
  - rewrite puts_loop_end. exists len, s, w. split; [ reflexivity | ].
    destruct Hinv as [Hg Hp Hr Hroom Hd Hfe Hfb Hc Hptr].
    unfold loop_post. split.
    { left. split; [ reflexivity | ]. split; [ lia | apply ran_clean_refl ]. }
    split; [ lia | ]. split; [ reflexivity | ]. split; [ reflexivity | ].
    exact Hc.
  - assert (Hpos : 0 < remain) by (destruct Hinv; lia).
    rewrite puts_loop_step by exact Hpos.
    destruct (iter_step d s w ptr remain Hinv Hpos) as (ctl & Hit & Hpost).
    rewrite Hit. destruct ctl as [s1 w1 ptr1 remain1 | ret s1 w1].
    + destruct Hpost as (Hinv1 & Hlt & Hsum & Hgeo & Hrun1).
      destruct (IH s1 w1 ptr1 remain1 Hinv1) as (ret & s2 & w2 & Hrun & Hp2).
      { destruct Hinv1. lia. }
      exists ret, s2, w2. split; [ exact Hrun | ].
      destruct Hp2 as (Hret & Hn & Hg2 & Hi2 & Hc2).
      destruct Hinv as [Hg Hp Hr Hroom Hd Hfe Hfb Hc Hptr].
      destruct Hinv1 as [Hg1 Hp1 Hr1 Hroom1 Hd1 _ _ Hc1 Hptr1].
      rewrite Hgeo in *.
      unfold loop_post. split.
      { destruct Hret as [(-> & Hadv & Hrun2) | Hfail].
        - left. split; [ reflexivity | ]. split; [ lia | ].
          apply (ran_clean_trans w w1 w2 Hrun1 Hrun2).
        - right. apply (ran_clean_into w w1 w2 ret Hrun1 Hfail). }
      split; [ lia | ]. split; [ congruence | ].
      split; [ congruence | exact Hc2 ].
    + destruct Hpost as (Hrun & Hn & Hg1 & Hi1 & Hc1).
      exists ret, s1, w1. split; [ reflexivity | ].
      unfold loop_post. split; [ right; exact Hrun | ].
      split; [ exact Hn | ]. split; [ exact Hg1 | ].
      split; [ exact Hi1 | exact Hc1 ].
Qed.

(** Past the capacity guard, on a driver without byte writes, the call is
    the loop over the whole buffer. *)
Lemma puts_buffered_loop (d : mtd_dev_s D) (s : lib_mtdoutstream_s D)
      (w : world D) (buf : list byte) (len : Z) :
  geo_ok (geo s) -> 0 <= nput s -> 0 <= len ->
  nput s + len <= capacity (geo s) ->
  inode s = Some d -> byte_write d = false ->
  mtdoutstream_puts s w buf len
  = puts_loop (S (Z.to_nat len)) s w buf len len.
Proof.
  intros Hg Hp Hl Hroom Hd Hmode.
  destruct (geo_ok_bounds _ Hg) as (_ & _ & Hc).
  unfold mtdoutstream_puts.
  rewrite capacity_check by (try assumption; unfold INT_MAX; lia).
  replace (capacity (geo s) <? nput s + len) with false
    by (symmetry; apply Z.ltb_ge; lia).
  unfold puts_buffered. rewrite (to_size_small len) by lia.
  unfold byte_write in Hmode. rewrite Hd.
  destruct CONFIG_MTD_BYTE_WRITE; [ | reflexivity ].
  destruct (write d); [ discriminate | reflexivity ].
Qed.

(** ** The byte-write branch *)

Lemma units_up_to_le (es x u : Z) :
  0 < es -> (units_up_to es x <= u <-> x <= u * es).
Proof.
  intros He. unfold units_up_to.
  pose proof (Z.div_mod (x + es - 1) es ltac:(lia)) as Hdm.
  pose proof (Z.mod_pos_bound (x + es - 1) es He) as Hm.
  split; intros H; nia.
Qed.

Lemma units_up_to_mono (es x y : Z) :
  0 < es -> x <= y -> units_up_to es x <= units_up_to es y.
Proof.
  intros He Hxy. unfold units_up_to. apply Z.div_le_mono; lia.
Qed.

Lemma puts_direct_unwrapped (d : mtd_dev_s D) (s : lib_mtdoutstream_s D)
      (w : world D) (buf : list byte) (len : Z) :
  geo_ok (geo s) -> 0 <= nput s -> 0 <= len ->
  nput s + len <= capacity (geo s) ->
  puts_direct d s w buf len =
  let sblock := units_up_to (erasesize (geo s)) (nput s) in
  let eblock := units_up_to (erasesize (geo s)) (nput s + len) in
  let '(ret, w1) :=
    if negb (sblock =? eblock)
    then MTD_ERASE d w sblock (eblock - sblock)
    else (OK, w) in
  if ret <? 0 then Done (ret, s, w1)
  else
    let '(ret, w2) := MTD_WRITE d w1 (nput s) len buf in
    if ret <? 0 then Done (ret, s, w2)
    else Done (len, set_nput s (nput s + len), w2).
Proof.
  intros Hg Hp Hl Hroom.
  destruct (geo_ok_bounds _ Hg) as ((He & He') & _ & Hc).
  pose proof (units_up_to_mono (erasesize (geo s)) (nput s) (nput s + len)
                He ltac:(lia)) as Hmono.
  assert (Hs : 0 <= units_up_to (erasesize (geo s)) (nput s)).
  { unfold units_up_to. apply Z.div_pos; lia. }
  assert (Hu : units_up_to (erasesize (geo s)) (nput s + len) < 2 ^ 32).
  { unfold units_up_to. apply Z.div_lt_upper_bound; nia. }
  unfold puts_direct, int_add, size_add, size_sub.
  rewrite to_size_erasesize by assumption.
  rewrite (to_int_small (nput s + len)) by lia.
  rewrite (to_size_small (nput s)), (to_size_small (nput s + len)),
    (to_size_small len) by lia.
  rewrite (to_size_small (nput s + erasesize (geo s))) by lia.
  rewrite (to_size_small (nput s + len + erasesize (geo s))) by lia.
  rewrite (to_size_small (nput s + erasesize (geo s) - 1)) by lia.
  rewrite (to_size_small (nput s + len + erasesize (geo s) - 1)) by lia.
  fold (units_up_to (erasesize (geo s)) (nput s)).
  fold (units_up_to (erasesize (geo s)) (nput s + len)).
  rewrite (to_size_small (_ - _)) by lia.
  reflexivity.
Qed.

(** ** Every call of the stream functions returns *)

Lemma stream_ok_nospace (d : mtd_dev_s D) (s : lib_mtdoutstream_s D)
      (w : world D) (buf : list byte) (len : Z) :
  stream_ok d s -> 0 <= len <= INT_MAX ->
  capacity (geo s) < nput s + len ->
  mtdoutstream_puts s w buf len = Done (- ENOSPC, s, w).
Proof.
  intros [Hg Hp Hd Hfe Hfb Hc] Hl Hover. unfold mtdoutstream_puts.
  rewrite capacity_check by assumption.
  replace (capacity (geo s) <? nput s + len) with true; [ reflexivity | ].
  symmetry. apply Z.ltb_lt. exact Hover.
Qed.

Lemma puts_direct_mode (d : mtd_dev_s D) (s : lib_mtdoutstream_s D)
      (w : world D) (buf : list byte) (len : Z) :
  stream_ok d s -> byte_write d = true -> 0 <= len ->
  nput s + len <= capacity (geo s) ->
  mtdoutstream_puts s w buf len = puts_direct d s w buf len.
Proof.
  intros [Hg Hp Hd Hfe Hfb Hc] Hmode Hl Hroom.
  destruct (geo_ok_bounds _ Hg) as (_ & _ & Hcap).
  unfold mtdoutstream_puts.
  rewrite capacity_check by (try assumption; unfold INT_MAX; lia).
  replace (capacity (geo s) <? nput s + len) with false
    by (symmetry; apply Z.ltb_ge; lia).
  unfold byte_write in Hmode. apply andb_prop in Hmode as [Hcfg Hw].
  rewrite Hcfg, Hd. destruct (write d); [ reflexivity | discriminate ].
Qed.

Lemma puts_spec (d : mtd_dev_s D) (s : lib_mtdoutstream_s D) (w : world D)
      (buf : list byte) (len : Z) :
  stream_ok d s -> 0 <= len <= INT_MAX -> len <= buflen buf ->
  exists ret s' w',
    mtdoutstream_puts s w buf len = Done (ret, s', w') /\
    puts_post d s w len ret s' w'.
Proof.
  intros Hok Hl Hbuf.
  destruct (Z_lt_le_dec (capacity (geo s)) (nput s + len)) as [Hover | Hroom].
  { rewrite stream_ok_nospace with (d := d) by assumption.
    exists (- ENOSPC), s, w. split; [ reflexivity | ].
    unfold puts_post.
    split; [ intros H; lia | ].
    split; [ intros _; repeat split; reflexivity | ].
    split; [ lia | ]. split; [ reflexivity | exact Hok ]. }
  destruct (byte_write d) eqn:Hmode.
  - (* the driver writes bytes *)
    rewrite puts_direct_mode with (d := d) by (try assumption; lia).
    destruct Hok as [Hg Hp Hd Hfe Hfb Hc].
    rewrite puts_direct_unwrapped by (try assumption; lia).
    cbv zeta.
    set (sblock := units_up_to (erasesize (geo s)) (nput s)).
    set (eblock := units_up_to (erasesize (geo s)) (nput s + len)).
    assert (Hsame : stream_ok d s) by (constructor; assumption).
    assert (Hfail : forall ret w',
               ran_into w w' ret -> puts_post d s w len ret s w').
    { intros ret w' Hrun. unfold puts_post.
      split; [ intros _; right; exact Hrun | ].
      split; [ intros H; lia | ]. split; [ lia | ].
      split; [ reflexivity | exact Hsame ]. }
    assert (Hwr : write d <> None).
    { unfold byte_write in Hmode. apply andb_prop in Hmode as [_ Hw].
      destruct (write d); [ discriminate | discriminate Hw ]. }
    assert (Hrest : forall w1,
               ran_clean w w1 ->
               exists ret s' w',
                 (let '(ret, w2) := MTD_WRITE d w1 (nput s) len buf in
                  if ret <? 0 then Done (ret, s, w2)
                  else Done (len, set_nput s (nput s + len), w2))
                 = Done (ret, s', w') /\ puts_post d s w len ret s' w').
    { intros w1 Hrun1.
      destruct (MTD_WRITE_run d w1 (nput s) len buf Hwr) as (r & dv & ->).
      destruct (r <? 0) eqn:Hret.
      - apply Z.ltb_lt in Hret. eexists r, s, _.
        split; [ reflexivity | ]. apply Hfail.
        apply (ran_into_emit w w1 dv (EvWrite (nput s) len buf r));
          [ exact Hrun1 | exact Hret ].
      - apply Z.ltb_ge in Hret.
        eexists len, (set_nput s (nput s + len)), _.
        split; [ reflexivity | ]. unfold puts_post.
        split.
        { intros _. left. split; [ reflexivity | ]. split; [ reflexivity | ].
          apply ran_clean_emit; [ exact Hrun1 | exact Hret ]. }
        split; [ intros H; lia | ].
        split; [ simpl; lia | ]. split; [ reflexivity | ].
        constructor; simpl; try assumption; lia. }
    destruct (negb (sblock =? eblock)).
    + destruct (MTD_ERASE_run d w sblock (eblock - sblock) Hfe)
        as (r1 & dv1 & ->).
      destruct (r1 <? 0) eqn:Hret.
      * apply Z.ltb_lt in Hret. eexists r1, s, _.
        split; [ reflexivity | ]. apply Hfail.
        apply (ran_into_emit w w dv1 (EvErase sblock (eblock - sblock) r1));
          [ apply ran_clean_refl | exact Hret ].
      * apply Z.ltb_ge in Hret. apply Hrest.
        apply ran_clean_emit; [ apply ran_clean_refl | exact Hret ].
    + replace (OK <? 0) with false by reflexivity.
      apply Hrest, ran_clean_refl.
  - (* the driver writes whole blocks *)
    pose proof Hok as [Hg Hp Hd Hfe Hfb Hc].
    destruct (Hc Hmode) as (c & Hcache & Hlen).
    rewrite puts_buffered_loop with (d := d) by (try assumption; lia).
    destruct (puts_loop_spec d len (S (Z.to_nat len)) s w buf len)
      as (ret & s' & w' & Hrun & Hpost).
    { constructor; try assumption; try lia. exists c. split; assumption. }
    { lia. }
    exists ret, s', w'. split; [ exact Hrun | ].
    destruct Hpost as (Hret & Hn & Hg' & Hi' & Hc').
    unfold puts_post. split; [ | split; [ | split; [ | split ] ] ].
    + intros _. exact Hret.
    + intros H. lia.
    + lia.
    + exact Hg'.
    + constructor; rewrite ?Hg', ?Hi'; try assumption; try lia.
      intros _. exact Hc'.
Qed.

(** ** Flush without the wrap-around *)

Lemma flush_unwrapped (s : lib_mtdoutstream_s D) (w : world D) :
  geo_ok (geo s) -> 0 <= nput s <= capacity (geo s) ->
  mtdoutstream_flush s w =
  let es := erasesize (geo s) in
  let nblk := es / blocksize (geo s) in
  if nput s mod es >? 0 then
    match inode s with
    | None => Undefined
    | Some d =>
        if byte_write d then Done (OK, s, w)
        else
          let '(ret, w1) := MTD_ERASE d w (nput s / es) 1 in
          if ret <? 0 then Done (ret, s, w1)
          else
            match cache s with
            | None => Undefined
            | Some c =>
                let '(ret, w2) :=
                  MTD_BWRITE d w1 (nput s / es * nblk) nblk c in
                Done (ret, s, w2)
            end
    end
  else Done (OK, s, w).
Proof.
  intros Hg Hp.
  destruct (iter_ranges s 0 Hg ltac:(lia) ltac:(lia))
    as (He & He' & Hsum & Ho & Hq & Hdm & Hb & Hn & Hnb).
  unfold mtdoutstream_flush, size_mul.
  rewrite to_size_erasesize, to_size_blocksize by assumption.
  rewrite (to_size_small (nput s)) by lia.
  rewrite (to_size_small (_ * _)) by nia.
  reflexivity.
Qed.

Lemma at_unit_boundary (es x k : Z) :
  0 < es -> x mod es = 0 -> 0 <= k < es ->
  (x + k) / es = x / es /\ (x + k) mod es = k.
Proof.
  intros He Hx Hk.
  pose proof (Z.div_mod x es ltac:(lia)) as Hdm. rewrite Hx in Hdm.
  split; [ symmetry; apply Z.div_unique with (r := k)
         | symmetry; apply Z.mod_unique with (q := x / es) ]; lia.
Qed.

Lemma whole_blocks (es bs : Z) :
  0 < bs -> (bs | es) -> es / bs * bs = es.
Proof.
  intros Hb [q ->]. rewrite Z.div_mul by lia. reflexivity.
Qed.

(** ** Whole units *)

(** C2. On a driver without byte writes, writing exactly one erase unit
    at a unit boundary erases that unit once and then, the erase having
    succeeded, programs its blocks once, from the caller's buffer.  These
    are the only driver calls; the cache is not used; when the block size
    divides the erase size the bytes programmed are the bytes written; and
    when the block write succeeds the call returns the length and the
    position has advanced by one unit. *)
Theorem puts_exact_unit (d : mtd_dev_s D) (s : lib_mtdoutstream_s D)
        (w : world D) (buf : list byte) (r1 : Z) (w1 : world D) :
  let es := erasesize (geo s) in
  let nblk := es / blocksize (geo s) in
  let sblock := nput s / es in
  stream_ok d s -> byte_write d = false ->
  nput s mod es = 0 -> nput s + es <= capacity (geo s) ->
  es <= buflen buf ->
  MTD_ERASE d w sblock 1 = (r1, w1) -> 0 <= r1 ->
  exists ret s' r2 w',
    mtdoutstream_puts s w buf es = Done (ret, s', w') /\
    trace w'
    = trace w
      ++ [EvErase sblock 1 r1; EvBWrite (sblock * nblk) nblk buf r2] /\
    cache s' = cache s /\
    ((blocksize (geo s) | es) ->
     bwrite_payload (geo s) (EvBWrite (sblock * nblk) nblk buf r2)
     = firstn (Z.to_nat es) buf) /\
    (0 <= r2 -> ret = es /\ nput s' = nput s + es).
Proof.
  intros es nblk sblock [Hg Hp Hd Hfe Hfb Hc] Hmode Hoff Hroom Hbuf Her Hr1.
  destruct (geo_ok_bounds _ Hg) as ((He & He') & _ & Hcap). fold es in He, He'.
  rewrite puts_buffered_loop with (d := d) by (try assumption; lia).
  rewrite puts_loop_step by lia.
  rewrite iter_bulk with (d := d) by (try assumption; lia).
  fold es. cbv zeta. rewrite Z.div_same by lia. fold nblk. fold sblock.
  rewrite !Z.mul_1_l, Her, not_neg by exact Hr1.
  pose proof (MTD_ERASE_trace d w sblock 1 r1 w1 Hfe Her) as Htr1.
  destruct (MTD_BWRITE_run d w1 (sblock * nblk) nblk buf Hfb)
    as (r2 & dv2 & ->).
  assert (Htr : trace (emit w1 dv2 (EvBWrite (sblock * nblk) nblk buf r2))
                = trace w
                  ++ [EvErase sblock 1 r1;
                      EvBWrite (sblock * nblk) nblk buf r2]).
  { simpl. rewrite Htr1, <- app_assoc. reflexivity. }
  assert (Hpay : (blocksize (geo s) | es) ->
                 bwrite_payload (geo s)
                                (EvBWrite (sblock * nblk) nblk buf r2)
                 = firstn (Z.to_nat es) buf).
  { intros Hdiv. simpl. unfold nblk.
    rewrite whole_blocks by (try assumption; apply (blocksize_pos _ Hg)).
    reflexivity. }
  destruct (r2 <? 0) eqn:Hr2.
  - apply Z.ltb_lt in Hr2. eexists r2, s, r2, _.
    split; [ reflexivity | ]. split; [ exact Htr | ].
    split; [ reflexivity | ]. split; [ exact Hpay | lia ].
  - rewrite Z.sub_diag, puts_loop_end.
    eexists es, _, r2, _.
    split; [ reflexivity | ]. split; [ exact Htr | ].
    split; [ reflexivity | ]. split; [ exact Hpay | ].
    intros _. split; reflexivity.
Qed.

(** ** Less than a unit, then flush *)

(** C3. On a driver without byte writes, writing [k] bytes, with
    [0 < k < erasesize], at a unit boundary calls no driver method: the
    world is as it was, and the cache holds the [k] bytes followed by
    zeros.  A flush then erases the unit and, the erase having succeeded,
    programs its blocks from the cache, that is the [k] bytes written
    followed by [erasesize - k] zeros. *)
Theorem puts_partial_then_flush (d : mtd_dev_s D) (s : lib_mtdoutstream_s D)
        (w : world D) (buf : list byte) (k : Z) (r1 : Z) (w1 : world D) :
  let es := erasesize (geo s) in
  let nblk := es / blocksize (geo s) in
  let sblock := nput s / es in
  let image := firstn (Z.to_nat k) buf ++ repeat x00 (Z.to_nat (es - k)) in
  let s1 := {| nput := nput s + k; geo := geo s; inode := inode s;
               cache := Some image |} in
  stream_ok d s -> byte_write d = false ->
  nput s mod es = 0 -> 0 < k < es -> nput s + k <= capacity (geo s) ->
  k <= buflen buf ->
  MTD_ERASE d w sblock 1 = (r1, w1) -> 0 <= r1 ->
  mtdoutstream_puts s w buf k = Done (k, s1, w) /\
  exists ret w',
    mtdoutstream_flush s1 w = Done (ret, s1, w') /\
    trace w'
    = trace w
      ++ [EvErase sblock 1 r1; EvBWrite (sblock * nblk) nblk image ret] /\
    ((blocksize (geo s) | es) ->
     bwrite_payload (geo s) (EvBWrite (sblock * nblk) nblk image ret)
     = image).
Proof.
  intros es nblk sblock image s1 [Hg Hp Hd Hfe Hfb Hc] Hmode Hoff Hk
         Hroom Hbuf Her Hr1.
  destruct (geo_ok_bounds _ Hg) as ((He & He') & _ & Hcap). fold es in He, He'.
  destruct (Hc Hmode) as (c & Hcache & Hlen).
  assert (Himage : buflen image = es).
  { unfold image, buflen in *.
    rewrite length_app, length_firstn, repeat_length. lia. }
  split.
  - rewrite puts_buffered_loop with (d := d) by (try assumption; lia).
    rewrite puts_loop_step by lia.
    rewrite iter_fresh with (c := c) by (try assumption; lia).
    rewrite puts_loop_end. reflexivity.
  - destruct (at_unit_boundary es (nput s) k He Hoff ltac:(lia))
      as (Hq & Hr).
    rewrite flush_unwrapped by (simpl; try assumption; lia).
    simpl. fold es. rewrite Hq, Hr. fold nblk. fold sblock.
    replace (k >? 0) with true by (symmetry; apply Z.gtb_lt; lia).
    rewrite Hd, Hmode, Her, not_neg by exact Hr1.
    pose proof (MTD_ERASE_trace d w sblock 1 r1 w1 Hfe Her) as Htr1.
    destruct (MTD_BWRITE_run d w1 (sblock * nblk) nblk image Hfb)
      as (r2 & dv2 & ->).
    exists r2. eexists. split; [ reflexivity | ]. split.
    + simpl. rewrite Htr1, <- app_assoc. reflexivity.
    + intros Hdiv. simpl. unfold nblk.
      rewrite whole_blocks by (try assumption; apply (blocksize_pos _ Hg)).
      apply firstn_all2. unfold buflen in Himage. lia.
Qed.

(** ** Byte writes *)


(** ** A commit that fails *)


(** ** The value returned *)


(** ** The cache is never overrun *)


(** ** Flush *)

Lemma flush_returns (d : mtd_dev_s D) (s : lib_mtdoutstream_s D)
      (w : world D) :
  stream_ok d s ->
  exists ret w', mtdoutstream_flush s w = Done (ret, s, w').
Proof.
  intros [Hg Hp Hd Hfe Hfb Hc].
  rewrite flush_unwrapped by assumption. cbv zeta.
  destruct (_ >? 0); [ | eauto ].
  rewrite Hd. destruct (byte_write d) eqn:Hmode; [ eauto | ].
  destruct (Hc eq_refl) as (c & -> & _).
  destruct (MTD_ERASE d w _ 1) as [ret w1].
  destruct (ret <? 0); [ eauto | ].
  destruct (MTD_BWRITE d w1 _ _ c) as [ret2 w2]. eauto.
Qed.

Lemma flush_no_io (d : mtd_dev_s D) (s : lib_mtdoutstream_s D)
      (w : world D) :
  stream_ok d s ->
  nput s mod erasesize (geo s) = 0 \/ byte_write d = true ->
  mtdoutstream_flush s w = Done (OK, s, w).
Proof.
  intros [Hg Hp Hd Hfe Hfb Hc] Hcase.
  rewrite flush_unwrapped by assumption. cbv zeta.
  destruct (_ >? 0) eqn:Hoff; [ | reflexivity ].
  apply Z.gtb_lt in Hoff. rewrite Hd.
  destruct Hcase as [H | ->]; [ lia | reflexivity ].
Qed.

Lemma flush_again (d : mtd_dev_s D) (s : lib_mtdoutstream_s D)
      (w w1 : world D) (ret : Z) :
  stream_ok d s -> flash_laws (geo s) d ->
  mtdoutstream_flush s w = Done (ret, s, w1) ->
  exists w2 evs,
    mtdoutstream_flush s w1 = Done (ret, s, w2) /\ dev w2 = dev w1 /\
    trace w1 = trace w ++ evs /\ trace w2 = trace w1 ++ evs.
Proof.
  intros [Hg Hp Hd Hfe Hfb Hc] [Hagain Hprog] H1.
  pose proof (flush_unwrapped s w1 Hg Hp) as H2.
  rewrite flush_unwrapped in H1 by assumption. cbv zeta in *.
  set (es := erasesize (geo s)) in *.
  set (nblk := es / blocksize (geo s)) in *.
  assert (Hnone : forall v : world D,
             mtdoutstream_flush s v = Done (ret, s, v) ->
             exists w2 evs,
               mtdoutstream_flush s v = Done (ret, s, w2) /\ dev w2 = dev v /\
               trace v = trace v ++ evs /\ trace w2 = trace v ++ evs).
  { intros v Hv. exists v, []. rewrite app_nil_r.
    split; [ exact Hv | ]. repeat split; reflexivity. }
  destruct (nput s mod es >? 0) eqn:Hoff.
  2:{ inversion H1; subst. apply Hnone. exact H2. }
  rewrite Hd in *. destruct (byte_write d) eqn:Hmode.
  { inversion H1; subst. apply Hnone. exact H2. }
  destruct (Hc eq_refl) as (c & Hcache & _). rewrite Hcache in *.
  clear Hnone. unfold MTD_ERASE, MTD_BWRITE in *.
  destruct (erase d) as [f |] eqn:Hf; [ | congruence ].
  destruct (bwrite d) as [h |] eqn:Hh; [ | congruence ].
  destruct (f (dev w) (nput s / es) 1) as [r1 dv1] eqn:He1.
  destruct (r1 <? 0) eqn:Hr1.
  { (* the erase fails, and fails again *)
    inversion H1; subst. simpl in H2.
    rewrite (Hagain f _ _ _ _ _ eq_refl He1), Hr1 in H2.
    eexists. eexists. split; [ exact H2 | ]. split; [ reflexivity | ].
    split; reflexivity. }
  simpl in H1.
  destruct (h dv1 (nput s / es * nblk) nblk c) as [r2 dv2] eqn:He2.
  inversion H1; subst. simpl in H2.
  apply Z.ltb_ge in Hr1.
  rewrite (Hprog f h _ _ _ _ _ _ _ eq_refl eq_refl He1 Hr1 He2) in H2.
  rewrite not_neg in H2 by exact Hr1. simpl in H2. rewrite He2 in H2.
  eexists. eexists. split; [ exact H2 | ]. split; [ reflexivity | ].
  split; simpl; rewrite <- ?app_assoc; reflexivity.
Qed.

(** C6. Flush changes neither the position nor the cache.  When the
    position is at a unit boundary, or the driver writes bytes, it calls
    no driver method and returns [OK].  On a driver that keeps the flash
    laws, a second flush right after the first makes the calls the first
    made, with the results the first had, returns what the first returned
    and leaves the driver state, the content of the device, as the first
    left it. *)
Theorem flush_idempotent (d : mtd_dev_s D) (s : lib_mtdoutstream_s D)
        (w : world D) :
  stream_ok d s -> flash_laws (geo s) d ->
  exists ret w1,
    mtdoutstream_flush s w = Done (ret, s, w1) /\
    (exists w2 evs,
        mtdoutstream_flush s w1 = Done (ret, s, w2) /\ dev w2 = dev w1 /\
        trace w1 = trace w ++ evs /\ trace w2 = trace w1 ++ evs) /\
    (nput s mod erasesize (geo s) = 0 \/ byte_write d = true ->
     ret = OK /\ w1 = w).
Proof.
  intros Hok Hlaws.
  destruct (flush_returns d s w Hok) as (ret & w1 & H1).
  exists ret, w1. split; [ exact H1 | ]. split.
  - apply (flush_again d s w w1 ret Hok Hlaws H1).
  - intros Hcase. rewrite (flush_no_io d s w Hok Hcase) in H1.
    inversion H1. split; reflexivity.
Qed.

(** ** Close *)

(** C7. Closing a stream calls no method of the driver: the driver state
    is as it was, whatever the position, and the trace grows by the
    release of the node and of the cache only, each when the pointer is
    not null.  The two pointers are null afterwards; on a stream whose
    pointers are null already, and on a null stream, close does nothing,
    so closing twice is closing once. *)
Theorem close_commits_nothing (s : lib_mtdoutstream_s D) (w : world D) :
  let closed := {| nput := nput s; geo := geo s; inode := None;
                   cache := None |} in
  let w' := snd (lib_mtdoutstream_close (Some s) w) in
  fst (lib_mtdoutstream_close (Some s) w) = Some closed /\
  dev w' = dev w /\
  trace w'
  = trace w
    ++ (match inode s with Some _ => [EvCloseDriver] | None => [] end)
    ++ (match cache s with Some _ => [EvFree] | None => [] end) /\
  lib_mtdoutstream_close (Some closed) w' = (Some closed, w') /\
  lib_mtdoutstream_close None w = (None, w).
Proof.
  unfold lib_mtdoutstream_close.
  destruct (inode s), (cache s); simpl;
    rewrite <- ?app_assoc, ?app_nil_r; repeat split; reflexivity.
Qed.

(** ** The position of a stream in use *)

Lemma to_uint32_range (z : Z) : 0 <= to_uint32 z < 2 ^ 32.
Proof. unfold to_uint32. apply Z.mod_pos_bound. lia. Qed.

(** A successful open leaves a well-formed stream at position 0. *)
Lemma open_stream_ok
      (find_mtddriver : String.string -> Z * option (mtd_dev_s D))
      (lib_malloc : Z -> option (list byte))
      (st : option (lib_mtdoutstream_s D)) (name : option String.string)
      (w0 : world D) (s : lib_mtdoutstream_s D) (w : world D) :
  malloc_ok lib_malloc ->
  lib_mtdoutstream_open find_mtddriver lib_malloc st name w0
  = Done (OK, Some s, w) ->
  capacity (geo s) <= INT_MAX ->
  nput s = 0 /\ exists d, stream_ok d s.
Proof.
  intros Hmalloc Hopen Hcap. unfold lib_mtdoutstream_open in Hopen.
  destruct st as [st |]; [ | discriminate ].
  destruct name as [nm |]; [ | discriminate ].
  destruct (find_mtddriver nm) as [ret node].
  destruct (ret <? 0) eqn:Hret.
  { inversion Hopen; subst. discriminate. }
  destruct node as [d |]; [ | discriminate ].
  destruct (ioctl d) as [io |]; [ | discriminate ].
  destruct (erase d) as [fe |] eqn:Hfe; [ | discriminate ].
  destruct (bwrite d) as [fb |] eqn:Hfb; [ | discriminate ].
  destruct (io (dev w0)) as [[r g] dv].
  set (g' := store_geometry g) in *.
  destruct ((r <? 0) || (blocksize g' <=? 0) || (erasesize g' <=? 0)
            || (neraseblocks g' <=? 0)) eqn:Hbad; [ discriminate | ].
  apply orb_false_elim in Hbad as [Hbad Hn].
  apply orb_false_elim in Hbad as [Hbad He].
  apply orb_false_elim in Hbad as [_ Hb].
  apply Z.leb_gt in Hn, He, Hb.
  assert (Hgeo : capacity g' <= INT_MAX -> geo_ok g').
  { intros Hc. constructor; try assumption.
    unfold g', store_geometry. simpl. apply to_uint32_range. }
  assert (Hes : to_size (erasesize g') = erasesize g').
  { apply to_size_small. split; [ lia | ].
    unfold g', store_geometry. simpl. apply to_uint32_range. }
  assert (Hcap0 : 0 <= 0 <= capacity g') by (unfold capacity; nia).
  clearbody g'.
  destruct (byte_write d) eqn:Hmode.
  - inversion Hopen; subst. simpl in *. split; [ reflexivity | ].
    exists d. constructor; simpl; try reflexivity.
    + apply Hgeo. exact Hcap.
    + exact Hcap0.
    + congruence.
    + congruence.
    + intros H. congruence.
  - destruct (lib_malloc (to_size (erasesize g'))) as [c |] eqn:Hc;
      [ | discriminate ].
    inversion Hopen; subst. simpl in *. split; [ reflexivity | ].
    exists d. constructor; simpl; try reflexivity.
    + apply Hgeo. exact Hcap.
    + exact Hcap0.
    + congruence.
    + congruence.
    + intros _. exists c. split; [ reflexivity | ].
      rewrite (Hmalloc _ _ Hc). exact Hes.
Qed.

(** Every call that a caller may make returns, moves the position forward
    or not at all, and leaves a well-formed stream. *)
Lemma run_call_spec (d : mtd_dev_s D) (c : call) (s : lib_mtdoutstream_s D)
      (w : world D) :
  stream_ok d s -> call_ok c ->
  exists s' w',
    run_call c s w = Done (s', w') /\
    nput s <= nput s' /\ geo s' = geo s /\ stream_ok d s'.
Proof.
  intros Hok Hcall. destruct c as [buf len | ch |]; simpl in *.
  - destruct Hcall as [Hl Hbuf].
    destruct (puts_spec d s w buf len Hok Hl Hbuf)
      as (ret & s' & w' & -> & _ & _ & Hmono & Hgeo & Hok').
    exists s', w'.
    split; [ reflexivity | split; [ | split ]; assumption ].
  - unfold mtdoutstream_putc.
    destruct (puts_spec d s w [char_of_int ch] 1 Hok)
      as (ret & s' & w' & -> & _ & _ & Hmono & Hgeo & Hok').
    { unfold INT_MAX. lia. }
    { unfold buflen. simpl. lia. }
    exists s', w'.
    split; [ reflexivity | split; [ | split ]; assumption ].
  - destruct (flush_returns d s w Hok) as (ret & w' & ->).
    exists s, w'.
    split; [ reflexivity | ]. split; [ lia | ].
    split; [ reflexivity | exact Hok ].
Qed.

(** No call changes the geometry. *)
Ltac split_matches :=
  repeat match goal with
         | H : context [match ?x with _ => _ end] |- _ => destruct x eqn:?
         | H : context [if ?x then _ else _] |- _ => destruct x eqn:?
         end.

Lemma puts_iter_geo (s : lib_mtdoutstream_s D) (w : world D)
      (ptr : list byte) (remain : Z) (ctl : loop_ctl) :
  puts_iter s w ptr remain = Done ctl ->
  match ctl with
  | Continue s' _ _ _ => geo s' = geo s
  | Return _ s' _ => geo s' = geo s
  end.
Proof.
  unfold puts_iter. intros H. split_matches;
    try discriminate; inversion H; reflexivity.
Qed.

Lemma puts_loop_geo (len : Z) (fuel : nat) :
  forall (s : lib_mtdoutstream_s D) (w : world D) (ptr : list byte)
         (remain ret : Z) (s' : lib_mtdoutstream_s D) (w' : world D),
    puts_loop fuel s w ptr remain len = Done (ret, s', w') ->
    geo s' = geo s.
Proof.
  induction fuel as [| fuel IH]; intros s w ptr remain ret s' w' H; simpl in H.
  - destruct (remain >? 0); [ discriminate | inversion H; reflexivity ].
  - destruct (remain >? 0); [ | inversion H; reflexivity ].
    destruct (puts_iter s w ptr remain) as [ctl | |] eqn:Hit;
      try discriminate.
    apply puts_iter_geo in Hit.
    destruct ctl as [s1 w1 ptr1 remain1 | ret1 s1 w1].
    + rewrite <- Hit. apply (IH _ _ _ _ _ _ _ H).
    + inversion H; subst. exact Hit.
Qed.

Lemma puts_geo (s : lib_mtdoutstream_s D) (w : world D) (buf : list byte)
      (len ret : Z) (s' : lib_mtdoutstream_s D) (w' : world D) :
  mtdoutstream_puts s w buf len = Done (ret, s', w') -> geo s' = geo s.
Proof.
  unfold mtdoutstream_puts, puts_buffered, puts_direct. intros H.
  assert (Hloop : forall fuel remain,
             puts_loop fuel s w buf remain len = Done (ret, s', w') ->
             geo s' = geo s).
  { intros fuel remain. apply puts_loop_geo. }
  destruct (_ >? _); [ inversion H; reflexivity | ].
  destruct CONFIG_MTD_BYTE_WRITE; [ | apply (Hloop _ _ H) ].
  destruct (inode s) as [d |]; [ | discriminate ].
  destruct (write d); [ | apply (Hloop _ _ H) ].
  clear Hloop. split_matches; inversion H; reflexivity.
Qed.

Lemma flush_geo (s : lib_mtdoutstream_s D) (w : world D) (ret : Z)
      (s' : lib_mtdoutstream_s D) (w' : world D) :
  mtdoutstream_flush s w = Done (ret, s', w') -> s' = s.
Proof.
  unfold mtdoutstream_flush. intros H.
  split_matches; try discriminate; inversion H; reflexivity.
Qed.

Lemma run_call_geo (c : call) (s : lib_mtdoutstream_s D) (w : world D)
      (s' : lib_mtdoutstream_s D) (w' : world D) :
  run_call c s w = Done (s', w') -> geo s' = geo s.
Proof.
  destruct c as [buf len | ch |]; simpl; intros H.
  - destruct (mtdoutstream_puts s w buf len) as [[[ret s1] w1] | |] eqn:Hp;
      try discriminate.
    inversion H; subst. apply (puts_geo _ _ _ _ _ _ _ Hp).
  - unfold mtdoutstream_putc in H.
    destruct (mtdoutstream_puts s w [char_of_int ch] 1)
      as [[[ret s1] w1] | |] eqn:Hp; try discriminate.
    inversion H; subst. apply (puts_geo _ _ _ _ _ _ _ Hp).
  - destruct (mtdoutstream_flush s w) as [[[ret s1] w1] | |] eqn:Hf;
      try discriminate.
    inversion H; subst. apply flush_geo in Hf. subst. reflexivity.
Qed.

Lemma reachable_stream_ok
      (find_mtddriver : String.string -> Z * option (mtd_dev_s D))
      (lib_malloc : Z -> option (list byte))
      (s : lib_mtdoutstream_s D) (w : world D) :
  malloc_ok lib_malloc ->
  reachable find_mtddriver lib_malloc s w ->
  capacity (geo s) <= INT_MAX ->
  exists d, stream_ok d s.
Proof.
  intros Hmalloc Hreach.
  induction Hreach as [st name w0 s w Hopen | s w c s' w' Hreach IH Hcall Hrun];
    intros Hcap.
  - apply (open_stream_ok _ _ _ _ _ _ _ Hmalloc Hopen Hcap).
  - pose proof (run_call_geo _ _ _ _ _ Hrun) as Hgeo.
    rewrite Hgeo in Hcap. destruct (IH Hcap) as (d & Hok).
    destruct (run_call_spec d c s w Hok Hcall)
      as (s1 & w1 & Hrun1 & _ & _ & Hok1).
    rewrite Hrun in Hrun1. inversion Hrun1; subst. exists d. exact Hok1.
Qed.

(** C9, amended.  A stream is at position 0 after a successful open.  On
    a device whose capacity [erasesize * neraseblocks] is at most
    [INT_MAX], in every state reached from there by calls of
    [mtdoutstream_putc] and [mtdoutstream_flush] and by calls of
    [mtdoutstream_puts] with a length from 0 to [INT_MAX] and a buffer
    that holds that many bytes, whatever they return, the position is
    from 0 to the capacity; and every further such call returns and leaves
    the position where it was or further on, still within that bound.
    A negative length, and a capacity beyond [INT_MAX], are outside the
    statement: there the position can move backwards. *)
Theorem position_within_capacity
        (find_mtddriver : String.string -> Z * option (mtd_dev_s D))
        (lib_malloc : Z -> option (list byte))
        (s : lib_mtdoutstream_s D) (w : world D) :
  malloc_ok lib_malloc ->
  reachable find_mtddriver lib_malloc s w ->
  erasesize (geo s) * neraseblocks (geo s) <= INT_MAX ->
  (forall st name w0 s0 w1,
      lib_mtdoutstream_open find_mtddriver lib_malloc st name w0
      = Done (OK, Some s0, w1) -> nput s0 = 0) /\
  0 <= nput s <= erasesize (geo s) * neraseblocks (geo s) /\
  forall c, call_ok c ->
    exists s' w',
      run_call c s w = Done (s', w') /\
      nput s <= nput s' <= erasesize (geo s') * neraseblocks (geo s').
Proof.
  intros Hmalloc Hreach Hcap.
  destruct (reachable_stream_ok _ _ _ _ Hmalloc Hreach Hcap) as (d & Hok).
  split; [ | split ].
  - intros st name w0 s0 w1 Hopen. clear - Hopen.
    unfold lib_mtdoutstream_open in Hopen.
    split_matches; try discriminate; inversion Hopen; subst; try reflexivity;
      discriminate.
  - apply (ok_nput _ _ Hok).
  - intros c Hcall.
    destruct (run_call_spec d c s w Hok Hcall)
      as (s' & w' & Hrun & Hmono & Hgeo & Hok').
    exists s', w'. split; [ exact Hrun | ].
    pose proof (ok_nput _ _ Hok') as Hn. unfold capacity in Hn. lia.
Qed.

(** ** Open and close hold and release the device *)

Ltac open_case evs :=
  eexists _, _, _, evs;
  split; [ reflexivity | ];
  split; [ simpl; rewrite <- ?app_assoc; reflexivity | ];
  split; [ reflexivity | ];
  split;
    [ repeat (apply Forall_cons;
              [ first [ left; reflexivity | right; reflexivity ] | ]);
      apply Forall_nil | ].

(** X1. Once [find_mtddriver] has delivered a node, a call of
    [lib_mtdoutstream_open] returns with the position at 0 and has called
    nothing of the driver but the geometry query.  Either it returns [OK]
    holding the node, with a cache exactly when the driver has no byte
    writes, and has released nothing; or it returns an error with both
    pointers null and has released the node exactly once. *)
Theorem open_holds_or_releases
        (find_mtddriver : String.string -> Z * option (mtd_dev_s D))
        (lib_malloc : Z -> option (list byte))
        (st : lib_mtdoutstream_s D) (nm : String.string) (w : world D)
        (r : Z) (d : mtd_dev_s D) :
  find_mtddriver nm = (r, Some d) -> 0 <= r ->
  exists ret s' w' evs,
    lib_mtdoutstream_open find_mtddriver lib_malloc (Some st) (Some nm) w
    = Done (ret, Some s', w') /\
    trace w' = trace w ++ evs /\
    nput s' = 0 /\
    Forall (fun e => e = EvGeometry \/ e = EvCloseDriver) evs /\
    (ret = OK /\ inode s' = Some d /\ count_events is_close evs = 0%nat /\
     (cache s' = None <-> byte_write d = true)
     \/
     ret < 0 /\ inode s' = None /\ cache s' = None /\
     count_events is_close evs = 1%nat).
Proof.
  intros Hfind Hr. unfold lib_mtdoutstream_open. rewrite Hfind.
  rewrite not_neg by exact Hr.
  destruct (ioctl d) as [io |];
    [ | open_case [EvCloseDriver]; right;
        repeat split; unfold EINVAL; lia ].
  destruct (erase d);
    [ | open_case [EvCloseDriver]; right;
        repeat split; unfold EINVAL; lia ].
  destruct (bwrite d);
    [ | open_case [EvCloseDriver]; right;
        repeat split; unfold EINVAL; lia ].
  destruct (io (dev w)) as [[r0 g] dv].
  destruct ((r0 <? 0) || (blocksize (store_geometry g) <=? 0)
            || (erasesize (store_geometry g) <=? 0)
            || (neraseblocks (store_geometry g) <=? 0));
    [ open_case [EvGeometry; EvCloseDriver]; right;
      repeat split; unfold EINVAL; lia | ].
  destruct (byte_write d) eqn:Hmode.
  - open_case [EvGeometry]. left.
    split; [ reflexivity | ]. split; [ reflexivity | ].
    split; [ reflexivity | ]. split; reflexivity.
  - destruct (lib_malloc (to_size (erasesize (store_geometry g)))).
    + open_case [EvGeometry]. left.
      split; [ reflexivity | ]. split; [ reflexivity | ].
      split; [ reflexivity | ]. split; intros H; discriminate H.
    + open_case [EvGeometry; EvCloseDriver]. right.
      repeat split; unfold ENOMEM; lia.
Qed.

(** X2. Every node that [lib_mtdoutstream_open] was given is released
    exactly once by the time the stream is closed, whether the open
    succeeded or failed, and the cache buffer is freed exactly when one was
    allocated: once after an open that returned [OK] on a driver without
    byte writes, never otherwise.  After the close both pointers are
    null. *)
Theorem open_close_balanced
        (find_mtddriver : String.string -> Z * option (mtd_dev_s D))
        (lib_malloc : Z -> option (list byte))
        (st : lib_mtdoutstream_s D) (nm : String.string) (w : world D)
        (r : Z) (d : mtd_dev_s D) :
  find_mtddriver nm = (r, Some d) -> 0 <= r ->
  exists ret s' w' s'' w'' evs,
    lib_mtdoutstream_open find_mtddriver lib_malloc (Some st) (Some nm) w
    = Done (ret, Some s', w') /\
    lib_mtdoutstream_close (Some s') w' = (Some s'', w'') /\
    trace w'' = trace w ++ evs /\
    count_events is_close evs = 1%nat /\
    count_events is_free evs
    = (if (ret =? OK) && negb (byte_write d) then 1%nat else 0%nat) /\
    inode s'' = None /\ cache s'' = None.
Proof.
  intros Hfind Hr. unfold lib_mtdoutstream_open. rewrite Hfind.
  rewrite not_neg by exact Hr.
  assert (Hneg : forall b, ((- EINVAL =? OK) && b) = false) by reflexivity.
  assert (Hmem : forall b, ((- ENOMEM =? OK) && b) = false) by reflexivity.
  destruct (ioctl d) as [io |];
    [ | eexists _, _, _, _, _, [EvCloseDriver];
        split; [ reflexivity | ]; split; [ reflexivity | ];
        simpl; rewrite ?Hneg; repeat split; reflexivity ].
  destruct (erase d);
    [ | eexists _, _, _, _, _, [EvCloseDriver];
        split; [ reflexivity | ]; split; [ reflexivity | ];
        simpl; rewrite ?Hneg; repeat split; reflexivity ].
  destruct (bwrite d);
    [ | eexists _, _, _, _, _, [EvCloseDriver];
        split; [ reflexivity | ]; split; [ reflexivity | ];
        simpl; rewrite ?Hneg; repeat split; reflexivity ].
  destruct (io (dev w)) as [[r0 g] dv].
  destruct ((r0 <? 0) || (blocksize (store_geometry g) <=? 0)
            || (erasesize (store_geometry g) <=? 0)
            || (neraseblocks (store_geometry g) <=? 0)).
  { eexists _, _, _, _, _, [EvGeometry; EvCloseDriver].
    split; [ reflexivity | ]. split; [ reflexivity | ].
    simpl. rewrite ?Hneg, <- ?app_assoc.
    repeat split; reflexivity. }
  destruct (byte_write d) eqn:Hmode.
  - eexists _, _, _, _, _, [EvGeometry; EvCloseDriver].
    split; [ reflexivity | ]. split; [ reflexivity | ].
    simpl. rewrite <- ?app_assoc.
    repeat split; reflexivity.
  - destruct (lib_malloc (to_size (erasesize (store_geometry g)))).
    + eexists _, _, _, _, _, [EvGeometry; EvCloseDriver; EvFree].
      split; [ reflexivity | ]. split; [ reflexivity | ].
    simpl. rewrite <- ?app_assoc.
      repeat split; reflexivity.
    + eexists _, _, _, _, _, [EvGeometry; EvCloseDriver].
      split; [ reflexivity | ]. split; [ reflexivity | ].
      simpl. rewrite ?Hmem, <- ?app_assoc.
      repeat split; reflexivity.
Qed.

(** ** Single bytes and empty writes *)

(** X3. [mtdoutstream_putc] on a stream whose position has reached the
    capacity of the device drops the byte without a trace: it calls
    nothing of the driver and leaves the position and the cache as they
    were, on a driver of either kind, and has no way to report it. *)
Theorem putc_when_full (d : mtd_dev_s D) (s : lib_mtdoutstream_s D)
        (w : world D) (ch : Z) :
  stream_ok d s -> nput s = capacity (geo s) ->
  mtdoutstream_putc s w ch = Done (s, w).
Proof.
  intros Hok Hfull. unfold mtdoutstream_putc.
  rewrite stream_ok_nospace with (d := d);
    [ reflexivity | exact Hok | unfold INT_MAX; lia | lia ].
Qed.

Lemma set_nput_same (s : lib_mtdoutstream_s D) :
  set_nput s (nput s + 0) = s.
Proof. destruct s. unfold set_nput. simpl. rewrite Z.add_0_r. reflexivity. Qed.

(** X4. A call of [mtdoutstream_puts] with length 0 returns 0 and leaves
    the stream as it was, also on a full device.  On a driver without byte
    writes it calls nothing; on a driver with byte writes it erases nothing
    but still calls the byte write once, for 0 bytes at the position, and
    returns the error if that call reports one. *)
Theorem puts_nothing (d : mtd_dev_s D) (s : lib_mtdoutstream_s D)
        (w : world D) (buf : list byte) :
  stream_ok d s ->
  (byte_write d = false -> mtdoutstream_puts s w buf 0 = Done (0, s, w)) /\
  (byte_write d = true ->
   exists r w',
     MTD_WRITE d w (nput s) 0 buf = (r, w') /\
     trace w' = trace w ++ [EvWrite (nput s) 0 buf r] /\
     mtdoutstream_puts s w buf 0
     = Done ((if r <? 0 then r else 0), s, w')).
Proof.
  intros Hok. pose proof Hok as [Hg Hp Hd Hfe Hfb Hc]. split; intros Hmode.
  - rewrite puts_buffered_loop with (d := d) by (try assumption; lia).
    apply puts_loop_end.
  - assert (Hwr : write d <> None).
    { unfold byte_write in Hmode. apply andb_prop in Hmode as [_ Hw].
      destruct (write d); [ discriminate | discriminate Hw ]. }
    rewrite puts_direct_mode with (d := d) by (try assumption; lia).
    rewrite puts_direct_unwrapped by (try assumption; lia).
    cbv zeta. rewrite Z.add_0_r, Z.eqb_refl. simpl negb. cbv iota.
    replace (OK <? 0) with false by reflexivity.
    destruct (MTD_WRITE d w (nput s) 0 buf) as [r w'] eqn:Hw.
    exists r, w'. split; [ reflexivity | ].
    split; [ apply (MTD_WRITE_trace d w _ _ _ _ _ Hwr Hw) | ].
    destruct (r <? 0); [ reflexivity | ].
    rewrite <- (Z.add_0_r (nput s)) at 1. rewrite set_nput_same. reflexivity.
Qed.

(** ** Writes at and within a unit *)

Lemma room_in_open_unit (g : mtd_geometry_s) (pos : Z) :
  geo_ok g -> 0 <= pos <= capacity g -> 0 < pos mod erasesize g ->
  pos - pos mod erasesize g + erasesize g <= capacity g.
Proof.
  intros Hg Hp Hoff.
  destruct (geo_ok_bounds _ Hg) as ((He & _) & _ & _).
  pose proof (Z.div_mod pos (erasesize g) ltac:(lia)) as Hdm.
  pose proof (Z.mod_pos_bound pos (erasesize g) He) as Hm.
  unfold capacity in *.
  assert (pos / erasesize g < neraseblocks g) by nia.
  nia.
Qed.



(** ** Where the driver is called *)

Lemma call_within_weaken (g : mtd_geometry_s) (lo lo' : Z) (e : mtd_event) :
  lo' <= lo -> call_within g lo e -> call_within g lo' e.
Proof.
  intros Hlo. destruct e; simpl; try tauto; intros (H1 & H2 & H3);
    (split; [ lia | split; assumption ]).
Qed.

Lemma calls_within_weaken (g : mtd_geometry_s) (lo lo' : Z)
      (evs : list mtd_event) :
  lo' <= lo -> Forall (call_within g lo) evs -> Forall (call_within g lo') evs.
Proof.
  intros Hlo H. eapply Forall_impl; [ | exact H ].
  intros e. apply call_within_weaken. exact Hlo.
Qed.

(** The erase of [n] units from unit [b] on and the block write of their
    blocks stay within the units they name. *)
Lemma commit_within (g : mtd_geometry_s) (b n r1 r2 : Z) (buf : list byte) :
  geo_ok g -> (blocksize g | erasesize g) -> 0 <= b -> 0 < n ->
  (b + n) * erasesize g <= capacity g ->
  call_within g (b * erasesize g) (EvErase b n r1) /\
  call_within g (b * erasesize g)
              (EvBWrite (b * (erasesize g / blocksize g))
                        (n * (erasesize g / blocksize g)) buf r2).
Proof.
  intros Hg Hdiv Hb Hn Hcap.
  pose proof (blocksize_pos _ Hg) as Hbs.
  pose proof (whole_blocks (erasesize g) (blocksize g) Hbs Hdiv) as Hw.
  destruct (geo_ok_bounds _ Hg) as ((He & _) & _ & _).
  assert (Hk : 0 <= erasesize g / blocksize g) by (apply Z.div_pos; lia).
  simpl. split; [ split; [ lia | split; [ lia | exact Hcap ] ] | ].
  split; [ rewrite <- Z.mul_assoc, Hw; lia | ].
  split; [ nia | ].
  replace ((b * (erasesize g / blocksize g)
            + n * (erasesize g / blocksize g)) * blocksize g)
    with ((b + n) * (erasesize g / blocksize g * blocksize g)) by ring.
  rewrite Hw. exact Hcap.
Qed.

Lemma base_of_position (es pos : Z) :
  0 < es -> pos - pos mod es = pos / es * es.
Proof.
  intros He. pose proof (Z.div_mod pos es ltac:(lia)). lia.
Qed.

(** One pass through the loop body calls the driver within the unit being
    filled and the units after it. *)
Lemma iter_calls (d : mtd_dev_s D) (s : lib_mtdoutstream_s D) (w : world D)
      (ptr : list byte) (remain : Z) (ctl : loop_ctl) :
  loop_inv d s ptr remain -> 0 < remain ->
  (blocksize (geo s) | erasesize (geo s)) ->
  puts_iter s w ptr remain = Done ctl ->
  let lo := nput s - nput s mod erasesize (geo s) in
  match ctl with
  | Continue s' w' _ _ =>
      exists evs, trace w' = trace w ++ evs /\
                  Forall (call_within (geo s) lo) evs
  | Return _ s' w' =>
      exists evs, trace w' = trace w ++ evs /\
                  Forall (call_within (geo s) lo) evs
  end.
Proof.
  intros [Hg Hp Hr Hroom Hd Hfe Hfb (c & Hc & Hlen) Hptr] Hpos Hdiv Hit.
  destruct (iter_ranges s remain Hg Hp Hroom)
    as (He & He' & Hsum & Ho & Hq & Hdm & Hb & Hn & Hnb).
  set (es := erasesize (geo s)) in *.
  set (off := nput s mod es) in *.
  assert (Hbase : nput s - off = nput s / es * es).
  { apply base_of_position. exact He. }
  assert (Hnone : forall v : world D,
             exists evs, trace v = trace v ++ evs /\
                         Forall (call_within (geo s) (nput s - off)) evs).
  { intros v. exists []. split; [ symmetry; apply app_nil_r | constructor ]. }
  cbv zeta.
  destruct (Z_lt_le_dec 0 off) as [Hoff | Hoff].
  - rewrite (iter_partial s w ptr remain Hg Hp Hpos Hroom c Hoff Hc Hlen Hptr)
      in Hit.
    fold es in Hit. fold off in Hit. cbv zeta in Hit.
    set (copyin := Z.min remain (es - off)) in *.
    assert (Hcp : 0 < copyin <= remain /\ off + copyin <= es)
      by (unfold copyin; lia).
    pose proof (room_in_open_unit (geo s) (nput s) Hg
                  ltac:(unfold capacity in *; lia) Hoff) as Hunit.
    fold es in Hunit. fold off in Hunit.
    destruct (off + copyin =? es).
    + rewrite Hd in Hit.
      destruct (MTD_ERASE_run d w (nput s / es) 1 Hfe) as (r1 & dv1 & Her).
      rewrite Her in Hit.
      destruct (commit_within (geo s) (nput s / es) 1 r1 0 [] Hg Hdiv Hq
                              ltac:(lia))
        as (Hw1 & _).
      { fold es. lia. }
      fold es in Hw1. rewrite <- Hbase in Hw1.
      destruct (r1 <? 0).
      * inversion Hit; subst ctl. eexists [_].
        split; [ reflexivity | ]. constructor; [ exact Hw1 | constructor ].
      * match type of Hit with
        | context [MTD_BWRITE ?a ?b ?x ?y ?z] =>
            destruct (MTD_BWRITE_run a b x y z Hfb) as (r2 & dv2 & Hbw);
              rewrite Hbw in Hit;
              destruct (commit_within (geo s) (nput s / es) 1 r1 r2 z Hg
                                      Hdiv Hq ltac:(lia))
              as (_ & Hw2)
        end.
        { fold es. lia. }
        fold es in Hw2. rewrite <- Hbase, Z.mul_1_l in Hw2.
        assert (Hboth : exists evs,
                   (trace w ++ [EvErase (nput s / es) 1 r1])
                     ++ [EvBWrite (nput s / es * (es / blocksize (geo s)))
                                  (es / blocksize (geo s))
                                  (firstn (Z.to_nat off) c
                                     ++ firstn (Z.to_nat copyin) ptr
                                     ++ skipn (Z.to_nat (off + copyin)) c)
                                  r2]
                   = trace w ++ evs /\
                   Forall (call_within (geo s) (nput s - off)) evs).
        { eexists [_; _].
          split; [ rewrite <- app_assoc; reflexivity | ].
          constructor; [ exact Hw1 | ].
          constructor; [ exact Hw2 | constructor ]. }
        destruct (r2 <? 0); inversion Hit; subst ctl.
        -- exact Hboth.
        -- exact Hboth.
    + inversion Hit; subst ctl. apply Hnone.
  - assert (Hoff0 : off = 0) by lia.
    destruct (Z_lt_le_dec remain es) as [Hlt | Hge].
    + rewrite (iter_fresh s w ptr remain Hg Hp Hpos Hroom c Hoff0 Hlt Hc Hlen
                          Hptr) in Hit.
      inversion Hit; subst ctl. apply Hnone.
    + rewrite (iter_bulk s w ptr remain Hg Hp Hpos Hroom d Hoff0 Hge Hd)
        in Hit.
      fold es in Hit. cbv zeta in Hit.
      pose proof (div_mul_le remain es ltac:(lia) He) as Hblk.
      assert (Hone : 1 <= remain / es).
      { apply Z.div_le_lower_bound; lia. }
      destruct (MTD_ERASE_run d w (nput s / es) (remain / es) Hfe)
        as (r1 & dv1 & Her).
      rewrite Her in Hit.
      assert (Hfit : (nput s / es + remain / es) * erasesize (geo s)
                     <= capacity (geo s)).
      { fold es. lia. }
      destruct (commit_within (geo s) (nput s / es) (remain / es) r1 0 []
                              Hg Hdiv Hq ltac:(lia) Hfit)
        as (Hw1 & _).
      fold es in Hw1. rewrite <- Hbase in Hw1.
      destruct (r1 <? 0).
      * inversion Hit; subst ctl. eexists [_].
        split; [ reflexivity | ]. constructor; [ exact Hw1 | constructor ].
      * match type of Hit with
        | context [MTD_BWRITE ?a ?b ?x ?y ?z] =>
            destruct (MTD_BWRITE_run a b x y z Hfb) as (r2 & dv2 & Hbw);
              rewrite Hbw in Hit;
              destruct (commit_within (geo s) (nput s / es) (remain / es)
                                      r1 r2 z Hg Hdiv Hq ltac:(lia) Hfit)
              as (_ & Hw2)
        end.
        fold es in Hw2. rewrite <- Hbase in Hw2.
        assert (Hboth : exists evs,
                   (trace w ++ [EvErase (nput s / es) (remain / es) r1])
                     ++ [EvBWrite (nput s / es * (es / blocksize (geo s)))
                                  (remain / es * (es / blocksize (geo s)))
                                  ptr r2]
                   = trace w ++ evs /\
                   Forall (call_within (geo s) (nput s - off)) evs).
        { eexists [_; _].
          split; [ rewrite <- app_assoc; reflexivity | ].
          constructor; [ exact Hw1 | ].
          constructor; [ exact Hw2 | constructor ]. }
        destruct (r2 <? 0); inversion Hit; subst ctl.
        -- exact Hboth.
        -- exact Hboth.
Qed.

Lemma base_mono (es x y : Z) :
  0 < es -> x <= y -> x - x mod es <= y - y mod es.
Proof.
  intros He Hxy. rewrite !base_of_position by exact He.
  apply Z.mul_le_mono_nonneg_r; [ lia | ].
  apply Z.div_le_mono; lia.
Qed.

(** The loop calls the driver within the unit being filled when it is
    entered and the units after it. *)
Lemma loop_calls (d : mtd_dev_s D) (len : Z) (fuel : nat) :
  forall (s : lib_mtdoutstream_s D) (w : world D) (ptr : list byte)
         (remain ret : Z) (s' : lib_mtdoutstream_s D) (w' : world D),
    loop_inv d s ptr remain ->
    (blocksize (geo s) | erasesize (geo s)) ->
    puts_loop fuel s w ptr remain len = Done (ret, s', w') ->
    exists evs,
      trace w' = trace w ++ evs /\
      Forall (call_within (geo s) (nput s - nput s mod erasesize (geo s)))
             evs.
Proof.
  induction fuel as [| fuel IH];
    intros s w ptr remain ret s' w' Hinv Hdiv Hrun.
  - simpl in Hrun. destruct (remain >? 0); [ discriminate | ].
    inversion Hrun; subst. exists [].
    split; [ symmetry; apply app_nil_r | constructor ].
  - destruct (Z.eq_dec remain 0) as [-> | Hne].
    + rewrite puts_loop_end in Hrun. inversion Hrun; subst. exists [].
      split; [ symmetry; apply app_nil_r | constructor ].
    + assert (Hpos : 0 < remain) by (destruct Hinv; lia).
      rewrite puts_loop_step in Hrun by exact Hpos.
      destruct (iter_step d s w ptr remain Hinv Hpos) as (ctl & Hit & Hpost).
      pose proof (iter_calls d s w ptr remain ctl Hinv Hpos Hdiv Hit)
        as Hcalls.
      rewrite Hit in Hrun. cbv zeta in Hcalls.
      destruct ctl as [s1 w1 ptr1 remain1 | ret1 s1 w1].
      * destruct Hpost as (Hinv1 & Hlt & Hsum & Hgeo & _).
        destruct Hcalls as (evs1 & Ht1 & Hw1).
        destruct (IH s1 w1 ptr1 remain1 ret s' w' Hinv1) as (evs2 & Ht2 & Hw2).
        { rewrite Hgeo. exact Hdiv. }
        { exact Hrun. }
        exists (evs1 ++ evs2).
        split; [ rewrite Ht2, Ht1, app_assoc; reflexivity | ].
        apply Forall_app. split; [ exact Hw1 | ].
        rewrite Hgeo in Hw2.
        apply calls_within_weaken
          with (lo := nput s1 - nput s1 mod erasesize (geo s));
          [ | exact Hw2 ].
        apply base_mono; [ | lia ].
        destruct Hinv as [Hg _ _ _ _ _ _ _ _].
        apply (erasesize_pos _ Hg).
      * inversion Hrun; subst. exact Hcalls.
Qed.

(** X7. On an open stream of a device whose capacity is at most
    [INT_MAX] and whose erase units are whole numbers of blocks, every
    call of putc or flush, and every call of puts with a length from 0 to
    [INT_MAX] and a buffer that holds that many bytes, returns, and every
    erase and write it asks of the driver lies within the device and
    touches no byte that the stream has committed before: none below the
    position on a driver with byte writes, none below the start of the
    unit being filled on a driver without.  What is committed never
    shrinks over such calls.  A puts call with a negative length is
    outside the statement. *)
Theorem calls_stay_within (d : mtd_dev_s D) (c : call)
        (s : lib_mtdoutstream_s D) (w : world D) :
  stream_ok d s -> call_ok c ->
  (blocksize (geo s) | erasesize (geo s)) ->
  exists s' w' evs,
    run_call c s w = Done (s', w') /\
    trace w' = trace w ++ evs /\
    Forall (call_within (geo s) (committed d s)) evs /\
    geo s' = geo s /\
    committed d s <= committed d s'.
Proof.
  intros Hok Hc Hdiv.
  assert (Hputs : forall buf len,
             0 <= len <= INT_MAX -> len <= buflen buf ->
             exists ret s' w' evs,
               mtdoutstream_puts s w buf len = Done (ret, s', w') /\
               trace w' = trace w ++ evs /\
               Forall (call_within (geo s) (committed d s)) evs /\
               geo s' = geo s /\
               committed d s <= committed d s').
  { intros buf len Hl Hbuf.
    destruct (puts_spec d s w buf len Hok Hl Hbuf)
      as (ret & s' & w' & Hrun & _ & _ & Hadv & Hgeo & _).
    pose proof Hrun as Hret.
    pose proof Hok as [Hg Hp Hd Hfe Hfb Hcache].
    destruct (geo_ok_bounds _ Hg) as ((He & He') & _ & Hcap).
    assert (Hmono : committed d s <= committed d s').
    { unfold committed. rewrite Hgeo.
      destruct (byte_write d); [ exact Hadv | ].
      apply base_mono; assumption. }
    exists ret, s', w'.
    destruct (Z_lt_le_dec (capacity (geo s)) (nput s + len))
      as [Hover | Hroom].
    { rewrite stream_ok_nospace with (d := d) in Hrun by assumption.
      inversion Hrun; subst. exists [].
      split; [ exact Hret | ].
      split; [ symmetry; apply app_nil_r | ].
      split; [ constructor | ]. split; [ reflexivity | lia ]. }
    destruct (byte_write d) eqn:Hmode.
    - rewrite puts_direct_mode with (d := d) in Hrun
        by (try assumption; lia).
      rewrite puts_direct_unwrapped in Hrun by (try assumption; lia).
      cbv zeta in Hrun.
      set (es := erasesize (geo s)) in *.
      set (sblock := units_up_to es (nput s)) in *.
      set (eblock := units_up_to es (nput s + len)) in *.
      assert (Hwr : write d <> None).
      { unfold byte_write in Hmode. apply andb_prop in Hmode as [_ Hw].
        destruct (write d); [ discriminate | discriminate Hw ]. }
      assert (Hsb : nput s <= sblock * es).
      { apply units_up_to_le; [ exact He | ]. unfold sblock. lia. }
      assert (Heb : eblock * es <= capacity (geo s)).
      { pose proof (proj2 (units_up_to_le es (nput s + len)
                                           (neraseblocks (geo s)) He))
          as Hup.
        fold eblock in Hup. unfold capacity in *. fold es in Hroom |- *.
        specialize (Hup ltac:(lia)). nia. }
      pose proof (units_up_to_mono es (nput s) (nput s + len) He
                    ltac:(lia)) as Hse.
      fold sblock in Hse. fold eblock in Hse.
      assert (Hwrite : forall r, call_within (geo s) (committed d s)
                                             (EvWrite (nput s) len buf r)).
      { intros r. unfold committed. rewrite Hmode. simpl. lia. }
      assert (Hrest : forall w1 evs1,
                 trace w1 = trace w ++ evs1 ->
                 Forall (call_within (geo s) (committed d s)) evs1 ->
                 (let '(ret, w2) := MTD_WRITE d w1 (nput s) len buf in
                  if ret <? 0 then Done (ret, s, w2)
                  else Done (len, set_nput s (nput s + len), w2))
                 = Done (ret, s', w') ->
                 exists evs,
                   trace w' = trace w ++ evs /\
                   Forall (call_within (geo s) (committed d s)) evs).
      { intros w1 evs1 Ht1 Hw1 Hrun1.
        destruct (MTD_WRITE_run d w1 (nput s) len buf Hwr)
          as (r & dv & Hwrun).
        rewrite Hwrun in Hrun1.
        exists (evs1 ++ [EvWrite (nput s) len buf r]).
        split.
        - destruct (r <? 0); inversion Hrun1; subst; simpl;
            rewrite Ht1, app_assoc; reflexivity.
        - apply Forall_app. split; [ exact Hw1 | ].
          constructor; [ apply Hwrite | constructor ]. }
      assert (Hevs : exists evs,
                 trace w' = trace w ++ evs /\
                 Forall (call_within (geo s) (committed d s)) evs).
      { destruct (negb (sblock =? eblock)) eqn:Hneq.
        - apply negb_true_iff, Z.eqb_neq in Hneq.
          destruct (MTD_ERASE_run d w sblock (eblock - sblock) Hfe)
            as (r1 & dv1 & Her).
          rewrite Her in Hrun.
          assert (Herase : call_within (geo s) (committed d s)
                                       (EvErase sblock (eblock - sblock) r1)).
          { unfold committed. rewrite Hmode. simpl. fold es.
            split; [ exact Hsb | ]. split; [ lia | ].
            replace (sblock + (eblock - sblock)) with eblock by ring.
            exact Heb. }
          destruct (r1 <? 0).
          + inversion Hrun; subst. eexists [_].
            split; [ reflexivity | ].
            constructor; [ exact Herase | constructor ].
          + apply (Hrest (emit w dv1 (EvErase sblock (eblock - sblock) r1))
                         [EvErase sblock (eblock - sblock) r1]);
              [ reflexivity | | exact Hrun ].
            constructor; [ exact Herase | constructor ].
        - replace (OK <? 0) with false in Hrun by reflexivity.
          apply (Hrest w []);
            [ symmetry; apply app_nil_r | constructor | exact Hrun ]. }
      destruct Hevs as (evs & Ht & Hw). exists evs.
      split; [ exact Hret | ]. split; [ exact Ht | ].
      split; [ exact Hw | ]. split; [ exact Hgeo | exact Hmono ].
    - destruct (Hcache eq_refl) as (c0 & Hc0 & Hlen0).
      rewrite puts_buffered_loop with (d := d) in Hrun
        by (try assumption; lia).
      destruct (loop_calls d len (S (Z.to_nat len)) s w buf len ret s' w')
        as (evs & Ht & Hw).
      { constructor; try assumption; try lia. exists c0.
        split; assumption. }
      { exact Hdiv. }
      { exact Hrun. }
      exists evs. split; [ exact Hret | ]. split; [ exact Ht | ].
      split; [ | split; [ exact Hgeo | exact Hmono ] ].
      unfold committed. rewrite Hmode. exact Hw. }
  destruct c as [buf len | ch | ].
  - destruct Hc as (Hl & Hbuf).
    destruct (Hputs buf len Hl Hbuf) as (ret & s' & w' & evs & Hrun & Hrest).
    exists s', w', evs. simpl. rewrite Hrun. split; [ reflexivity | ].
    exact Hrest.
  - destruct (Hputs [char_of_int ch] 1)
      as (ret & s' & w' & evs & Hrun & Hrest).
    { unfold INT_MAX. lia. }
    { unfold buflen. simpl. lia. }
    exists s', w', evs. simpl. unfold mtdoutstream_putc. rewrite Hrun.
    split; [ reflexivity | exact Hrest ].
  - pose proof Hok as [Hg Hp Hd Hfe Hfb Hcache].
    destruct (iter_ranges s 0 Hg ltac:(lia) ltac:(lia))
      as (He & He' & Hsum & Ho & Hq & Hdm & Hb & Hn & Hnb).
    simpl. rewrite flush_unwrapped by assumption. cbv zeta.
    set (es := erasesize (geo s)) in *.
    assert (Hquiet : exists evs,
               trace w = trace w ++ evs /\
               Forall (call_within (geo s) (committed d s)) evs /\
               geo s = geo s /\ committed d s <= committed d s).
    { exists []. split; [ symmetry; apply app_nil_r | ].
      split; [ constructor | ]. split; [ reflexivity | lia ]. }
    destruct (nput s mod es >? 0) eqn:Hoff;
      [ | exists s, w; destruct Hquiet as (evs & H);
          exists evs; split; [ reflexivity | exact H ] ].
    apply Z.gtb_lt in Hoff. rewrite Hd.
    destruct (byte_write d) eqn:Hmode;
      [ exists s, w; destruct Hquiet as (evs & H);
        exists evs; split; [ reflexivity | exact H ] | ].
    destruct (Hcache eq_refl) as (c0 & Hc0 & Hlen0).
    pose proof (room_in_open_unit (geo s) (nput s) Hg Hp Hoff) as Hunit.
    fold es in Hunit.
    assert (Hbase : nput s - nput s mod es = nput s / es * es).
    { apply base_of_position. exact He. }
    assert (Hfit : (nput s / es + 1) * erasesize (geo s)
                   <= capacity (geo s)).
    { fold es. lia. }
    destruct (MTD_ERASE_run d w (nput s / es) 1 Hfe) as (r1 & dv1 & Her).
    rewrite Her.
    destruct (commit_within (geo s) (nput s / es) 1 r1 0 c0 Hg Hdiv Hq
                            ltac:(lia) Hfit) as (Hw1 & _).
    fold es in Hw1. rewrite <- Hbase in Hw1.
    assert (Hcom : committed d s = nput s - nput s mod es).
    { unfold committed. rewrite Hmode. reflexivity. }
    destruct (r1 <? 0).
    + eexists s, _, [_]. split; [ reflexivity | ].
      split; [ reflexivity | ].
      split; [ rewrite Hcom; constructor; [ exact Hw1 | constructor ] | ].
      split; [ reflexivity | lia ].
    + rewrite Hc0.
      destruct (MTD_BWRITE_run d (emit w dv1 (EvErase (nput s / es) 1 r1))
                               (nput s / es * (es / blocksize (geo s)))
                               (es / blocksize (geo s)) c0 Hfb)
        as (r2 & dv2 & Hbw).
      rewrite Hbw.
      destruct (commit_within (geo s) (nput s / es) 1 r1 r2 c0 Hg Hdiv Hq
                              ltac:(lia) Hfit) as (_ & Hw2).
      fold es in Hw2. rewrite <- Hbase, Z.mul_1_l in Hw2.
      eexists s, _, [_; _]. split; [ reflexivity | ].
      split; [ simpl; rewrite <- app_assoc; reflexivity | ].
      split; [ rewrite Hcom; constructor; [ exact Hw1 | ];
               constructor; [ exact Hw2 | constructor ] | ].
      split; [ reflexivity | lia ].
Qed.

(** ** What reaches the device *)










Lemma mod_fill (es x k : Z) :
  0 < es -> x mod es + k = es -> (x + k) mod es = 0.
Proof.
  intros He Hfit. pose proof (Z.div_mod x es ltac:(lia)) as Hdm.
  symmetry. apply Z.mod_unique with (q := x / es + 1); lia.
Qed.












(** ** Where an error leaves the position *)

(** The first unit boundary at or after [x]. *)
Lemma next_boundary (es x : Z) :
  0 < es -> 0 <= x ->
  units_up_to es x * es
  = if x mod es =? 0 then x else x - x mod es + es.
Proof.
  intros He Hx. unfold units_up_to.
  pose proof (Z.div_mod x es ltac:(lia)) as Hdm.
  pose proof (Z.mod_pos_bound x es He) as Hm.
  destruct (x mod es =? 0) eqn:E;
    [ apply Z.eqb_eq in E | apply Z.eqb_neq in E ].
  - replace ((x + es - 1) / es) with (x / es); [ lia | ].
    apply Z.div_unique with (r := es - 1); lia.
  - replace ((x + es - 1) / es) with (x / es + 1); [ lia | ].
    apply Z.div_unique with (r := x mod es - 1); lia.
Qed.

(** How one pass through the loop body leaves the position: a pass that
    returns has met its error with the position at the next unit
    boundary; a pass that goes on has taken all that remained, or has
    filled the open unit, or has written whole units and left less than
    one. *)
Lemma iter_error (d : mtd_dev_s D) (s : lib_mtdoutstream_s D) (w : world D)
      (ptr : list byte) (remain : Z) (ctl : loop_ctl) :
  loop_inv d s ptr remain -> 0 < remain ->
  puts_iter s w ptr remain = Done ctl ->
  let es := erasesize (geo s) in
  match ctl with
  | Continue s1 _ _ remain1 =>
      remain1 = 0 \/
      nput s1 mod es = 0 /\
      (0 < nput s mod es /\ nput s1 = units_up_to es (nput s) * es \/
       remain1 < es)
  | Return _ s1 _ =>
      nput s1 = units_up_to es (nput s) * es /\
      (0 < nput s mod es \/ es <= remain)
  end.
Proof.
  intros [Hg Hp Hr Hroom Hd Hfe Hfb (c & Hc & Hlen) Hptr] Hpos Hit.
  destruct (iter_ranges s remain Hg Hp Hroom)
    as (He & He' & Hsum & Ho & Hq & Hdm & Hb & Hn & Hnb).
  cbv zeta. pose proof (next_boundary _ _ He Hp) as Hnext.
  set (es := erasesize (geo s)) in *.
  set (off := nput s mod es) in *.
  destruct (Z_lt_le_dec 0 off) as [Hoff | Hoff].
  - rewrite (iter_partial s w ptr remain Hg Hp Hpos Hroom c Hoff Hc Hlen Hptr)
      in Hit.
    fold es in Hit. fold off in Hit. cbv zeta in Hit.
    set (copyin := Z.min remain (es - off)) in *.
    replace (off =? 0) with false in Hnext
      by (symmetry; apply Z.eqb_neq; lia).
    destruct (off + copyin =? es) eqn:Hfill;
      [ apply Z.eqb_eq in Hfill | apply Z.eqb_neq in Hfill ].
    + assert (Hmod : (nput s + copyin) mod es = 0).
      { apply mod_fill; [ exact He | fold off; lia ]. }
      rewrite Hd in Hit.
      destruct (MTD_ERASE d w (nput s / es) 1) as [r1 wa].
      destruct (r1 <? 0).
      { inversion Hit; subst ctl. simpl. split; lia. }
      destruct (MTD_BWRITE d wa _ _ _) as [r2 wb].
      destruct (r2 <? 0); inversion Hit; subst ctl; simpl.
      * split; lia.
      * right. split; [ exact Hmod | ]. left. split; lia.
    + inversion Hit; subst ctl. left. unfold copyin in *. lia.
  - assert (Hoff0 : off = 0) by lia.
    rewrite Hoff0 in Hnext. simpl in Hnext.
    destruct (Z_lt_le_dec remain es) as [Hlt | Hge].
    + rewrite (iter_fresh s w ptr remain Hg Hp Hpos Hroom c Hoff0 Hlt Hc Hlen
                          Hptr) in Hit.
      inversion Hit; subst ctl. left. reflexivity.
    + rewrite (iter_bulk s w ptr remain Hg Hp Hpos Hroom d Hoff0 Hge Hd)
        in Hit.
      fold es in Hit. cbv zeta in Hit.
      pose proof (Z.div_mod remain es ltac:(lia)) as Hrdm.
      pose proof (Z.mod_pos_bound remain es He) as Hrm.
      destruct (MTD_ERASE d w (nput s / es) (remain / es)) as [r1 wa].
      destruct (r1 <? 0).
      { inversion Hit; subst ctl. split; lia. }
      destruct (MTD_BWRITE d wa _ _ _) as [r2 wb].
      destruct (r2 <? 0); inversion Hit; subst ctl; simpl.
      * split; lia.
      * right. split; [ | right; lia ].
        rewrite Z_mod_plus_full. exact Hoff0.
Qed.

Lemma loop_error (d : mtd_dev_s D) (len : Z) (fuel : nat) :
  forall (s : lib_mtdoutstream_s D) (w : world D) (ptr : list byte)
         (remain ret : Z) (s' : lib_mtdoutstream_s D) (w' : world D),
    0 <= len -> loop_inv d s ptr remain ->
    puts_loop fuel s w ptr remain len = Done (ret, s', w') ->
    (nput s mod erasesize (geo s) = 0 -> remain < erasesize (geo s) ->
     0 <= ret) /\
    (ret < 0 ->
     nput s' = units_up_to (erasesize (geo s)) (nput s) * erasesize (geo s)).
Proof.
  induction fuel as [| fuel IH];
    intros s w ptr remain ret s' w' Hlen Hinv Hrun.
  - simpl in Hrun. destruct (remain >? 0); [ discriminate | ].
    inversion Hrun; subst. split; intros; lia.
  - destruct (Z.eq_dec remain 0) as [-> | Hne].
    + rewrite puts_loop_end in Hrun. inversion Hrun; subst.
      split; intros; lia.
    + assert (Hpos : 0 < remain) by (destruct Hinv; lia).
      rewrite puts_loop_step in Hrun by exact Hpos.
      destruct (iter_step d s w ptr remain Hinv Hpos) as (ctl & Hit & Hpost).
      pose proof (iter_error d s w ptr remain ctl Hinv Hpos Hit) as Herr.
      rewrite Hit in Hrun. cbv zeta in Herr.
      pose proof Hinv as [Hg Hp _ _ _ _ _ _ _].
      pose proof (erasesize_pos _ Hg) as He.
      destruct ctl as [s1 w1 ptr1 remain1 | ret1 s1 w1].
      * destruct Hpost as (Hinv1 & Hlt & Hsum & Hgeo & _).
        destruct (IH s1 w1 ptr1 remain1 ret s' w' Hlen Hinv1 Hrun)
          as (Hq1 & Hp1).
        rewrite Hgeo in Hq1, Hp1.
        destruct Herr as [-> | (Hmod & [(Hoff & Hat) | Hless])].
        -- rewrite puts_loop_end in Hrun. inversion Hrun; subst.
           split; intros; lia.
        -- split; [ intros; lia | ].
           intros Hneg. rewrite Hp1 by exact Hneg.
           pose proof (li_pos _ _ _ _ Hinv1) as Hp1'.
           rewrite (next_boundary _ (nput s1) He Hp1'), Hmod. simpl.
           exact Hat.
        -- specialize (Hq1 Hmod Hless). split; intros; lia.
      * inversion Hrun; subst ret1 s1 w1.
        destruct Herr as (Hat & Hcase).
        split; [ intros; lia | intros _; exact Hat ].
Qed.

(** X10. On an open stream of a device whose capacity is at most
    [INT_MAX], a puts call with a length from 0 to [INT_MAX] and a buffer
    that holds that many bytes returns, and when it returns a negative
    value it leaves the geometry and the device handle as they were and
    the position at a known place: where it was, with the stream
    unchanged, on a driver with byte writes or when the write did not fit
    the device; at the first unit boundary at or after where it was on a
    driver without.  A puts call with a negative length is outside the
    statement. *)
Theorem puts_error_position (d : mtd_dev_s D) (s : lib_mtdoutstream_s D)
        (w : world D) (buf : list byte) (len : Z) :
  stream_ok d s -> 0 <= len <= INT_MAX -> len <= buflen buf ->
  exists ret s' w',
    mtdoutstream_puts s w buf len = Done (ret, s', w') /\
    (ret < 0 ->
     geo s' = geo s /\ inode s' = inode s /\
     if byte_write d || (capacity (geo s) <? nput s + len) then s' = s
     else nput s'
          = units_up_to (erasesize (geo s)) (nput s) * erasesize (geo s)).
Proof.
  intros Hok Hl Hbuf.
  destruct (puts_spec d s w buf len Hok Hl Hbuf)
    as (ret & s' & w' & Hrun & _ & _ & _ & Hgeo & Hok').
  exists ret, s', w'. split; [ exact Hrun | ]. intros Hneg.
  split; [ exact Hgeo | ].
  split; [ rewrite (ok_inode _ _ Hok), (ok_inode _ _ Hok'); reflexivity | ].
  destruct (Z_lt_le_dec (capacity (geo s)) (nput s + len))
    as [Hover | Hroom].
  { rewrite stream_ok_nospace with (d := d) in Hrun by assumption.
    inversion Hrun; subst.
    replace (capacity (geo s') <? nput s' + len) with true
      by (symmetry; apply Z.ltb_lt; exact Hover).
    rewrite orb_true_r. reflexivity. }
  replace (capacity (geo s) <? nput s + len) with false
    by (symmetry; apply Z.ltb_ge; exact Hroom).
  rewrite orb_false_r.
  pose proof Hok as [Hg Hp Hd Hfe Hfb Hc].
  destruct (byte_write d) eqn:Hmode.
  - rewrite puts_direct_mode with (d := d) in Hrun by (try assumption; lia).
    rewrite puts_direct_unwrapped in Hrun by (try assumption; lia).
    cbv zeta in Hrun.
    destruct (if negb (_ =? _) then _ else _) as [r1 w1].
    destruct (r1 <? 0); [ inversion Hrun; reflexivity | ].
    destruct (MTD_WRITE d w1 (nput s) len buf) as [r2 w2].
    destruct (r2 <? 0); inversion Hrun; subst; [ reflexivity | lia ].
  - destruct (Hc eq_refl) as (c & Hcache & Hlen).
    rewrite puts_buffered_loop with (d := d) in Hrun
      by (try assumption; lia).
    assert (Hinv : loop_inv d s buf len).
    { constructor; try assumption; try lia. exists c. split; assumption. }
    destruct (loop_error d len (S (Z.to_nat len)) s w buf len ret s' w'
                         ltac:(lia) Hinv Hrun) as (_ & Hat).
    apply Hat. exact Hneg.
Qed.

End Stream.

(** ** The RAM driver keeps the contracts of the statements *)

Lemma ram_store_again (mem : list byte) :
  forall (off : nat) (data : list byte),
    ram_store (ram_store mem off data) off data = ram_store mem off data.
Proof.
  induction mem as [| x mem IH]; intros off data; [ reflexivity | ].
  destruct off as [| off]; simpl.
  - destruct data as [| y data]; [ reflexivity | ].
    simpl. rewrite IH. reflexivity.
  - rewrite IH. reflexivity.
Qed.

Lemma ram_store_covered (mem : list byte) :
  forall (off : nat) (inner outer : list byte),
    (length inner <= length outer)%nat ->
    ram_store (ram_store mem off inner) off outer = ram_store mem off outer.
Proof.
  induction mem as [| x mem IH]; intros off inner outer Hlen;
    [ reflexivity | ].
  destruct off as [| off]; simpl.
  - destruct inner as [| y inner]; [ reflexivity | ].
    destruct outer as [| z outer]; [ simpl in Hlen; lia | ].
    simpl. rewrite IH by (simpl in Hlen; lia). reflexivity.
  - rewrite IH by exact Hlen. reflexivity.
Qed.

Lemma ram_mtd_flash_laws (g : mtd_geometry_s) (fe fb : Z)
      (byte_writes : bool) :
  0 < blocksize g -> (blocksize g | erasesize g) ->
  flash_laws (list byte) g (ram_mtd g fe fb byte_writes).
Proof.
  intros Hb Hdiv. constructor.
  - intros f dv b n r dv' Hf Hrun. simpl in Hf. inversion Hf; subst f.
    unfold ram_erase in *. destruct (fe <? 0).
    + inversion Hrun; subst. reflexivity.
    + inversion Hrun; subst. rewrite ram_store_again. reflexivity.
  - intros f h dv b r dv1 buf r2 dv2 Hf Hh Herase Hr Hprog.
    simpl in Hf, Hh. inversion Hf; subst f. inversion Hh; subst h.
    unfold ram_erase, ram_bwrite in *.
    destruct (fe <? 0) eqn:Hfe.
    { inversion Herase; subst. apply Z.ltb_lt in Hfe. lia. }
    inversion Herase; subst r dv1. clear Herase.
    destruct (fb <? 0).
    + inversion Hprog; subst. rewrite ram_store_again. reflexivity.
    + inversion Hprog; subst r2 dv2. clear Hprog.
      destruct Hdiv as [q Hq].
      assert (Hwhole : erasesize g / blocksize g * blocksize g = erasesize g).
      { rewrite Hq, Z.div_mul by lia. reflexivity. }
      replace (b * (erasesize g / blocksize g) * blocksize g)
        with (b * erasesize g)
        by (rewrite <- Z.mul_assoc, Hwhole; reflexivity).
      rewrite Hwhole.
      change (match erasesize g with
              | 0 => 0
              | Z.pos y' => Z.pos y'
              | Z.neg y' => Z.neg y'
              end) with (1 * erasesize g).
      rewrite !Z.mul_1_l.
      rewrite ram_store_covered, ram_store_again; [ reflexivity | ].
      rewrite length_firstn, repeat_length. lia.
Qed.





Lemma ram_malloc_ok : malloc_ok ram_malloc.
Proof.
  intros n c. unfold ram_malloc.
  destruct (0 <=? n) eqn:Hn; [ | discriminate ].
  apply Z.leb_le in Hn. intros H. inversion H.
  unfold buflen. rewrite repeat_length. lia.
Qed.

Lemma small_geo_ok : geo_ok small_geo.
Proof. constructor; unfold capacity, INT_MAX; simpl; lia. Qed.

Lemma small_stream_ok (fe fb : Z) (cfg : bool) (pos : Z) (c : list byte) :
  0 <= pos <= 12 -> buflen c = 4 ->
  stream_ok cfg (list byte) (ram_mtd small_geo fe fb false)
            (small_stream (ram_mtd small_geo fe fb false) pos (Some c)).
Proof.
  intros Hpos Hc. constructor; simpl.
  - apply small_geo_ok.
  - unfold capacity. simpl. lia.
  - reflexivity.
  - discriminate.
  - discriminate.
  - intros _. exists c. split; [ reflexivity | exact Hc ].
Qed.

(** ** The statements at work on the RAM driver *)

Lemma puts_nospace_witness :
  mtdoutstream_puts 32 true (list byte)
    (small_stream small_ram 10 (Some [x00; x00; x00; x00]))
    small_world [x01; x02; x03] 3
  = Done (- ENOSPC, small_stream small_ram 10 (Some [x00; x00; x00; x00]),
          small_world)
  /\ mtdoutstream_puts 32 true (list byte)
       (small_stream small_ram_bytes 10 None) small_world [x01; x02; x03] 3
     = Done (- ENOSPC, small_stream small_ram_bytes 10 None, small_world).
Proof.
  split; apply (puts_nospace 32 true (list byte)); simpl;
    unfold INT_MAX; lia.
Defined.

Lemma puts_exact_unit_witness :
  exists ret s' r2 w',
    mtdoutstream_puts 32 true (list byte)
      (small_stream small_ram 4 (Some [x00; x00; x00; x00]))
      small_world [x01; x02; x03; x04] 4
    = Done (ret, s', w') /\
    trace w' = [EvErase 1 1 0; EvBWrite 2 2 [x01; x02; x03; x04] r2] /\
    cache s' = Some [x00; x00; x00; x00] /\
    ((2 | 4) ->
     bwrite_payload small_geo (EvBWrite 2 2 [x01; x02; x03; x04] r2)
     = [x01; x02; x03; x04]) /\
    (0 <= r2 -> ret = 4 /\ nput s' = 4 + 4).
Proof.
  apply (puts_exact_unit 32 true (list byte) ltac:(lia) small_ram
           (small_stream small_ram 4 (Some [x00; x00; x00; x00]))
           small_world [x01; x02; x03; x04] 0
           (snd (MTD_ERASE (list byte) small_ram small_world 1 1))).
  - apply small_stream_ok; [ lia | reflexivity ].
  - reflexivity.
  - reflexivity.
  - unfold capacity. simpl. lia.
  - unfold buflen. simpl. lia.
  - reflexivity.
  - lia.
Defined.

Lemma puts_partial_then_flush_witness :
  mtdoutstream_puts 32 true (list byte)
    (small_stream small_ram 4 (Some [xff; xff; xff; xff]))
    small_world [x01; x02; x03] 3
  = Done (3, small_stream small_ram 7 (Some [x01; x02; x03; x00]),
          small_world) /\
  exists ret w',
    mtdoutstream_flush 32 true (list byte)
      (small_stream small_ram 7 (Some [x01; x02; x03; x00])) small_world
    = Done (ret, small_stream small_ram 7 (Some [x01; x02; x03; x00]), w') /\
    trace w' = [EvErase 1 1 0; EvBWrite 2 2 [x01; x02; x03; x00] ret] /\
    ((2 | 4) ->
     bwrite_payload small_geo (EvBWrite 2 2 [x01; x02; x03; x00] ret)
     = [x01; x02; x03; x00]).
Proof.
  apply (puts_partial_then_flush 32 true (list byte) ltac:(lia) small_ram
           (small_stream small_ram 4 (Some [xff; xff; xff; xff]))
           small_world [x01; x02; x03] 3 0
           (snd (MTD_ERASE (list byte) small_ram small_world 1 1))).
  - apply small_stream_ok; [ lia | reflexivity ].
  - reflexivity.
  - reflexivity.
  - simpl. lia.
  - unfold capacity. simpl. lia.
  - unfold buflen. simpl. lia.
  - reflexivity.
  - lia.
Defined.



Lemma flush_idempotent_witness :
  exists ret w1,
    mtdoutstream_flush 32 true (list byte)
      (small_stream small_ram 6 (Some [x01; x02; x00; x00])) small_world
    = Done (ret, small_stream small_ram 6 (Some [x01; x02; x00; x00]), w1) /\
    (exists w2 evs,
        mtdoutstream_flush 32 true (list byte)
          (small_stream small_ram 6 (Some [x01; x02; x00; x00])) w1
        = Done (ret, small_stream small_ram 6 (Some [x01; x02; x00; x00]),
                w2) /\
        dev w2 = dev w1 /\
        trace w1 = trace small_world ++ evs /\ trace w2 = trace w1 ++ evs) /\
    (6 mod 4 = 0 \/ byte_write true (list byte) small_ram = true ->
     ret = OK /\ w1 = small_world).
Proof.
  apply (flush_idempotent 32 true (list byte) ltac:(lia) small_ram
           (small_stream small_ram 6 (Some [x01; x02; x00; x00]))
           small_world).
  - apply small_stream_ok; [ lia | reflexivity ].
  - apply ram_mtd_flash_laws; simpl; [ lia | exists 2; reflexivity ].
Defined.


Lemma position_within_capacity_witness :
  (forall st name w0 s0 w1,
      lib_mtdoutstream_open 32 true (list byte) small_find ram_malloc
                            st name w0
      = Done (OK, Some s0, w1) -> nput s0 = 0) /\
  0 <= 0 <= 4 * 3 /\
  forall c, call_ok c ->
    exists s' w',
      run_call 32 true (list byte) c
               (small_stream small_ram 0 (Some [x00; x00; x00; x00]))
               {| dev := small_mem; trace := [EvGeometry] |}
      = Done (s', w') /\
      0 <= nput s' <= erasesize (geo s') * neraseblocks (geo s').
Proof.
  apply (position_within_capacity 32 true (list byte) ltac:(lia)
           small_find ram_malloc
           (small_stream small_ram 0 (Some [x00; x00; x00; x00]))
           {| dev := small_mem; trace := [EvGeometry] |}).
  - apply ram_malloc_ok.
  - apply (reach_open 32 true (list byte) small_find ram_malloc
             (Some (small_stream small_ram 5 None)) (Some String.EmptyString)
             small_world).
    reflexivity.
  - unfold INT_MAX. simpl. lia.
Defined.


(** ** The further statements at work on the RAM driver *)

Lemma small_stream_bytes_ok (pos : Z) :
  0 <= pos <= 12 ->
  stream_ok true (list byte) small_ram_bytes
            (small_stream small_ram_bytes pos None).
Proof.
  intros Hpos. constructor; simpl.
  - apply small_geo_ok.
  - unfold capacity. simpl. lia.
  - reflexivity.
  - discriminate.
  - discriminate.
  - discriminate.
Qed.

Lemma open_holds_or_releases_witness :
  exists ret s' w' evs,
    lib_mtdoutstream_open 32 true (list byte) small_find ram_malloc
      (Some (small_stream small_ram 5 None)) (Some String.EmptyString)
      small_world
    = Done (ret, Some s', w') /\
    trace w' = trace small_world ++ evs /\
    nput s' = 0 /\
    Forall (fun e => e = EvGeometry \/ e = EvCloseDriver) evs /\
    (ret = OK /\ inode s' = Some small_ram /\
     count_events is_close evs = 0%nat /\
     (cache s' = None <-> byte_write true (list byte) small_ram = true) \/
     ret < 0 /\ inode s' = None /\ cache s' = None /\
     count_events is_close evs = 1%nat).
Proof.
  apply (open_holds_or_releases 32 true (list byte) small_find ram_malloc
           (small_stream small_ram 5 None) String.EmptyString small_world
           OK small_ram).
  - reflexivity.
  - unfold OK. lia.
Defined.

Lemma open_close_balanced_witness :
  exists ret s' w' s'' w'' evs,
    lib_mtdoutstream_open 32 true (list byte) small_find ram_malloc
      (Some (small_stream small_ram 5 None)) (Some String.EmptyString)
      small_world
    = Done (ret, Some s', w') /\
    lib_mtdoutstream_close (list byte) (Some s') w' = (Some s'', w'') /\
    trace w'' = trace small_world ++ evs /\
    count_events is_close evs = 1%nat /\
    count_events is_free evs
    = (if (ret =? OK) && negb (byte_write true (list byte) small_ram)
       then 1%nat else 0%nat) /\
    inode s'' = None /\ cache s'' = None.
Proof.
  apply (open_close_balanced 32 true (list byte) small_find ram_malloc
           (small_stream small_ram 5 None) String.EmptyString small_world
           OK small_ram).
  - reflexivity.
  - unfold OK. lia.
Defined.

Lemma putc_when_full_witness :
  mtdoutstream_putc 32 true (list byte)
    (small_stream small_ram 12 (Some [x01; x02; x03; x04])) small_world 65
  = Done (small_stream small_ram 12 (Some [x01; x02; x03; x04]),
          small_world).
Proof.
  apply (putc_when_full 32 true (list byte) ltac:(lia) small_ram).
  - apply small_stream_ok; [ lia | reflexivity ].
  - reflexivity.
Defined.

Lemma puts_nothing_witness :
  (byte_write true (list byte) small_ram_bytes = false ->
   mtdoutstream_puts 32 true (list byte)
     (small_stream small_ram_bytes 5 None) small_world [] 0
   = Done (0, small_stream small_ram_bytes 5 None, small_world)) /\
  (byte_write true (list byte) small_ram_bytes = true ->
   exists r w',
     MTD_WRITE (list byte) small_ram_bytes small_world 5 0 [] = (r, w') /\
     trace w' = trace small_world ++ [EvWrite 5 0 [] r] /\
     mtdoutstream_puts 32 true (list byte)
       (small_stream small_ram_bytes 5 None) small_world [] 0
     = Done ((if r <? 0 then r else 0),
             small_stream small_ram_bytes 5 None, w')).
Proof.
  apply (puts_nothing 32 true (list byte) ltac:(lia) small_ram_bytes
           (small_stream small_ram_bytes 5 None) small_world []).
  apply small_stream_bytes_ok. lia.
Defined.



Lemma calls_stay_within_witness :
  exists s' w' evs,
    run_call 32 true (list byte)
             (CallPuts [x04; x05; x06; x07; x08; x09] 6)
             (small_stream small_ram 3 (Some [x01; x02; x03; x00]))
             small_world
    = Done (s', w') /\
    trace w' = trace small_world ++ evs /\
    Forall (call_within
              small_geo
              (committed true (list byte) small_ram
                 (small_stream small_ram 3 (Some [x01; x02; x03; x00]))))
           evs /\
    geo s' = small_geo /\
    committed true (list byte) small_ram
      (small_stream small_ram 3 (Some [x01; x02; x03; x00]))
    <= committed true (list byte) small_ram s'.
Proof.
  apply (calls_stay_within 32 true (list byte) ltac:(lia) small_ram
           (CallPuts [x04; x05; x06; x07; x08; x09] 6)
           (small_stream small_ram 3 (Some [x01; x02; x03; x00]))
           small_world).
  - apply small_stream_ok; [ lia | reflexivity ].
  - simpl. unfold INT_MAX, buflen. simpl. lia.
  - exists 2. reflexivity.
Defined.



Lemma puts_error_position_witness :
  exists ret s' w',
    mtdoutstream_puts 32 true (list byte)
      (small_stream small_ram_worn 6 (Some [x01; x02; x00; x00]))
      small_world [x03; x04; x05] 3
    = Done (ret, s', w') /\
    (ret < 0 ->
     geo s' = small_geo /\ inode s' = Some small_ram_worn /\
     nput s' = 8).
Proof.
  apply (puts_error_position 32 true (list byte) ltac:(lia) small_ram_worn
           (small_stream small_ram_worn 6 (Some [x01; x02; x00; x00]))
           small_world [x03; x04; x05] 3).
  - apply small_stream_ok; [ lia | reflexivity ].
  - unfold INT_MAX. lia.
  - unfold buflen. simpl. lia.
Defined.

(** ** Where the capacity invariant and the cache bound end

    The length of [mtdoutstream_puts] and the position are C ints, and
    neither is checked against its sign.  The runs below are outside the
    ranges of the two amended statements. *)

Lemma void_open :
  lib_mtdoutstream_open 32 true unit large_find ram_malloc
    (Some (large_stream 7)) (Some String.EmptyString)
    {| dev := tt; trace := [] |}
  = Done (OK, Some (large_stream 0), {| dev := tt; trace := [EvGeometry] |}).
Proof. reflexivity. Qed.

Lemma void_puts_fills (buf : list byte) (tr : list mtd_event) :
  run_call 32 true unit (CallPuts buf INT_MAX) (large_stream 0)
           {| dev := tt; trace := tr |}
  = Done (large_stream INT_MAX,
          {| dev := tt;
             trace := (tr ++ [EvErase 0 32768 0])
                        ++ [EvWrite 0 INT_MAX buf INT_MAX] |}).
Proof. reflexivity. Qed.

Lemma void_puts_wraps (tr : list mtd_event) :
  run_call 32 true unit (CallPuts [x00] 1) (large_stream INT_MAX)
           {| dev := tt; trace := tr |}
  = Done (large_stream (- 2 ^ 31),
          {| dev := tt; trace := tr ++ [EvWrite INT_MAX 1 [x00] 1] |}).
Proof. reflexivity. Qed.

Lemma big_buf_holds : INT_MAX <= buflen big_buf.
Proof.
  unfold big_buf, buflen. rewrite repeat_length.
  rewrite Z2Nat.id; unfold INT_MAX; lia.
Qed.

(** C9 as first stated fails.  After an open and a write of 5 bytes on
    the RAM driver with byte writes, a puts call with the length -1 passes
    the guard of line 99 and leaves the position at 4.  On
    the device of 3 GiB, with a 32-bit [size_t], a write of [INT_MAX]
    bytes and then one of 1 byte, both with buffers that hold them, pass
    the guard and leave the position at [- 2 ^ 31]. *)
Lemma position_moves_back :
  (exists s w s' w',
      reachable 32 true (list byte) small_find_bytes ram_malloc s w /\
      run_call 32 true (list byte) (CallPuts [x0a] (-1)) s w
      = Done (s', w') /\
      nput s = 5 /\ nput s' = 4) /\
  (exists s w s' w',
      reachable 32 true unit large_find ram_malloc s w /\
      call_ok (CallPuts [x00] 1) /\
      run_call 32 true unit (CallPuts [x00] 1) s w = Done (s', w') /\
      nput s = INT_MAX /\ nput s' = - 2 ^ 31).
Proof.
  split.
  - eexists _, _, _, _. split; [ | split; [ | split ] ].
    + eapply reach_call with (c := CallPuts [x01; x02; x03; x04; x05] 5).
      * eapply reach_open
          with (st := Some (small_stream small_ram_bytes 7 None))
               (name := Some String.EmptyString) (w0 := small_world).
        lazy. reflexivity.
      * simpl. unfold INT_MAX, buflen. simpl. lia.
      * lazy. reflexivity.
    + lazy. reflexivity.
    + reflexivity.
    + reflexivity.
  - exists (large_stream INT_MAX),
      {| dev := tt;
         trace := ([EvGeometry] ++ [EvErase 0 32768 0])
                    ++ [EvWrite 0 INT_MAX big_buf INT_MAX] |},
      (large_stream (- 2 ^ 31)),
      {| dev := tt;
         trace := (([EvGeometry] ++ [EvErase 0 32768 0])
                     ++ [EvWrite 0 INT_MAX big_buf INT_MAX])
                    ++ [EvWrite INT_MAX 1 [x00] 1] |}.
    split; [ | split; [ | split; [ | split ] ] ].
    + apply reach_call
        with (s := large_stream 0)
             (w := {| dev := tt; trace := [EvGeometry] |})
             (c := CallPuts big_buf INT_MAX).
      * apply reach_open
          with (st := Some (large_stream 7))
               (name := Some String.EmptyString)
               (w0 := {| dev := tt; trace := [] |}).
        apply void_open.
      * split; [ unfold INT_MAX; lia | apply big_buf_holds ].
      * apply void_puts_fills.
    + split; [ unfold INT_MAX; lia | unfold buflen; simpl; lia ].
    + apply void_puts_wraps.
    + reflexivity.
    + reflexivity.
Qed.

